(** * The to-do list page: task store and view projector

    A shallow embedding of the logic of the [HomePage] component
    (task type, filter state, the add / update / delete / clear handlers,
    the load and persist effects and the [filteredTasks] projection),
    followed by the properties established about it.

    JavaScript strings are sequences of UTF-16 code units; they are
    modelled as lists of [N].  Host services whose result is not fixed by
    the page's own code (case mapping, collation, the [Date] parser and
    printer) are gathered in the class [Host]; the UUID generator and the
    clock are inputs of the handler that consults them. *)

From Stdlib Require Import ZArith NArith Ascii String.
From stdpp Require Import base decidable option list sorting gmap.

Local Open Scope N_scope.

(** ** Strings *)

Abbreviation jsstring := (list N).

(** A string literal as a sequence of code units (ASCII text only). *)
Definition js (s : string) : jsstring :=
  (λ a, N_of_ascii a) <$> list_ascii_of_string s.

(** The literal between double quotes. *)
Definition quoted (s : string) : jsstring := 34 :: js s ++ [34].

(** ToBoolean on a string: the empty string is the only falsy one. *)
Definition truthy (s : jsstring) : bool :=
  match s with [] => false | _ :: _ => true end.

(** WhiteSpace and LineTerminator code units, the set that
    [String.prototype.trim] strips. *)
Definition is_whitespace (c : N) : bool :=
  (9 <=? c) && (c <=? 13)
  || (c =? 32) || (c =? 160) || (c =? 5760)
  || (8192 <=? c) && (c <=? 8202)
  || (c =? 8232) || (c =? 8233) || (c =? 8239) || (c =? 8287)
  || (c =? 12288) || (c =? 65279).

Fixpoint trimStart (s : jsstring) : jsstring :=
  match s with
  | c :: s' => if is_whitespace c then trimStart s' else s
  | [] => []
  end.

Definition trimEnd (s : jsstring) : jsstring := rev (trimStart (rev s)).

Definition trim (s : jsstring) : jsstring := trimEnd (trimStart s).

Fixpoint startsWith (s t : jsstring) {struct t} : bool :=
  match t with
  | [] => true
  | d :: t' =>
      match s with
      | [] => false
      | c :: s' => (c =? d) && startsWith s' t'
      end
  end.

(** [String.prototype.includes]: [t] occurs in [s] as a contiguous run. *)
Fixpoint includes (s t : jsstring) : bool :=
  startsWith s t || match s with [] => false | _ :: s' => includes s' t end.

(** ** Host services *)

Class Host := {
  (** [String.prototype.toLowerCase] *)
  toLowerCase : jsstring → jsstring;
  (** [String.prototype.localeCompare]: negative, zero or positive *)
  localeCompare : jsstring → jsstring → Z;
  (** time value of [new Date(s)]; [None] is the NaN of an invalid date *)
  Date_parse : jsstring → option Z;
  (** [Date.prototype.toISOString] of a valid time value *)
  Date_toISOString : Z → jsstring
}.

(** ** Data model *)

Inductive Priority := low | medium | high.

Record Task := {
  id : jsstring;
  title : jsstring;
  description : jsstring;
  completed : bool;
  createdAt : jsstring;
  dueDate : option jsstring;
  priority : Priority
}.

Inductive Status := status_all | status_active | status_completed.
Inductive PriorityFilter := prio_all | prio_low | prio_medium | prio_high.
Inductive SortKey := sort_created | sort_due | sort_title | sort_priority.

Record FilterState := {
  f_query : jsstring;
  f_status : Status;
  f_priority : PriorityFilter;
  f_sort : SortKey
}.

Definition defaultFilter : FilterState :=
  {| f_query := []; f_status := status_all;
     f_priority := prio_all; f_sort := sort_created |}.

Definition priorityRank (p : Priority) : Z :=
  match p with high => 0 | medium => 1 | low => 2 end.

Record Draft := {
  d_title : jsstring;
  d_description : jsstring;
  d_dueDate : jsstring;
  d_priority : Priority
}.

Definition emptyDraft : Draft :=
  {| d_title := []; d_description := []; d_dueDate := []; d_priority := medium |}.

#[global] Instance Priority_eq_dec : EqDecision Priority.
Proof. solve_decision. Defined.
#[global] Instance Task_eq_dec : EqDecision Task.
Proof. solve_decision. Defined.
#[global] Instance Draft_eq_dec : EqDecision Draft.
Proof. solve_decision. Defined.

(** ** Completions *)

Inductive exn := RangeError | SyntaxError.

(** The outcome of running a handler: it returns and leaves a new state,
    or an exception escapes it and no state update was enqueued. *)
Inductive completion (A : Type) :=
  | Normal (a : A)
  | Throw (e : exn).
Arguments Normal {A} a.
Arguments Throw {A} e.

(** ** Task store *)

Section Store.
Context `{Host}.

(** [new Date(s).toISOString()]: throws RangeError on an invalid date. *)
Definition Date_string_toISOString (s : jsstring) : completion jsstring :=
  match Date_parse s with
  | Some tv => Normal (Date_toISOString tv)
  | None => Throw RangeError
  end.

(** [handleSubmit].  [uuid] is what [crypto.randomUUID()] returns for
    this call and [now] the time value of [new Date()].  The state is
    the pair of the task collection and the draft. *)
Definition handleSubmit (uuid : jsstring) (now : Z)
    (draft : Draft) (prev : list Task) : completion (list Task * Draft) :=
  if negb (truthy (trim (d_title draft))) then Normal (prev, draft)
  else
    let due :=
      if truthy (d_dueDate draft)
      then match Date_string_toISOString (d_dueDate draft) with
           | Normal iso => Normal (Some iso)
           | Throw e => Throw e
           end
      else Normal None in
    match due with
    | Throw e => Throw e
    | Normal due =>
        let newTask :=
          {| id := uuid;
             title := trim (d_title draft);
             description := trim (d_description draft);
             completed := false;
             createdAt := Date_toISOString now;
             dueDate := due;
             priority := d_priority draft |} in
        Normal (newTask :: prev, emptyDraft)
    end.

(** The state a handler call leaves: unchanged when it threw. *)
Definition tasks_after (c : completion (list Task * Draft))
    (prev : list Task) : list Task :=
  match c with Normal (ts, _) => ts | Throw _ => prev end.

End Store.

(** A partial field-level overwrite, [Partial<Task>]: each field is
    absent or carries the value to write.  A patch may carry
    [dueDate: undefined], hence the nested option. *)
Record Patch := {
  p_id : option jsstring;
  p_title : option jsstring;
  p_description : option jsstring;
  p_completed : option bool;
  p_createdAt : option jsstring;
  p_dueDate : option (option jsstring);
  p_priority : option Priority
}.

Definition emptyPatch : Patch :=
  {| p_id := None; p_title := None; p_description := None;
     p_completed := None; p_createdAt := None; p_dueDate := None;
     p_priority := None |}.

(** [{ ...task, ...patch }] *)
Definition spread_patch (task : Task) (patch : Patch) : Task :=
  {| id := default (id task) (p_id patch);
     title := default (title task) (p_title patch);
     description := default (description task) (p_description patch);
     completed := default (completed task) (p_completed patch);
     createdAt := default (createdAt task) (p_createdAt patch);
     dueDate := default (dueDate task) (p_dueDate patch);
     priority := default (priority task) (p_priority patch) |}.

(** [Array.prototype.map] and [Array.prototype.filter] build a new array
    from the elements in index order. *)
Fixpoint Array_map {A B} (f : A → B) (l : list A) : list B :=
  match l with
  | [] => []
  | x :: l' => f x :: Array_map f l'
  end.

Fixpoint Array_filter {A} (p : A → bool) (l : list A) : list A :=
  match l with
  | [] => []
  | x :: l' => if p x then x :: Array_filter p l' else Array_filter p l'
  end.

Definition updateTask (i : jsstring) (patch : Patch) (prev : list Task) : list Task :=
  Array_map (λ task, if bool_decide (id task = i) then spread_patch task patch else task) prev.

Definition deleteTask (i : jsstring) (prev : list Task) : list Task :=
  Array_filter (λ task, negb (bool_decide (id task = i))) prev.

Definition clearCompleted (prev : list Task) : list Task :=
  Array_filter (λ task, negb (completed task)) prev.

Definition completedCount (tasks : list Task) : nat :=
  length (Array_filter completed tasks).

(** ** View projector *)

(** JavaScript numbers as far as the comparators need them: an integer
    or NaN ([None]). *)
Abbreviation number := (option Z).

Definition number_sub (a b : number) : number :=
  match a, b with
  | Some x, Some y => Some (x - y)%Z
  | _, _ => None
  end.

Definition priority_filter_of (p : Priority) : PriorityFilter :=
  match p with low => prio_low | medium => prio_medium | high => prio_high end.

#[global] Instance Status_eq_dec : EqDecision Status.
Proof. solve_decision. Defined.
#[global] Instance PriorityFilter_eq_dec : EqDecision PriorityFilter.
Proof. solve_decision. Defined.
#[global] Instance SortKey_eq_dec : EqDecision SortKey.
Proof. solve_decision. Defined.

(** [!a.dueDate] is false exactly for a present, non-empty string. *)
Definition has_dueDate (a : Task) : bool :=
  match dueDate a with Some d => truthy d | None => false end.

Section Projector.
Context `{Host}.

(** [new Date(s).getTime()] *)
Definition getTime (s : jsstring) : number := Date_parse s.

(** The callback given to [.filter] in [filteredTasks]. *)
Definition keep (filter : FilterState) (task : Task) : bool :=
  if bool_decide (f_status filter = status_active) && completed task then false
  else if bool_decide (f_status filter = status_completed) && negb (completed task) then false
  else if negb (bool_decide (f_priority filter = prio_all))
          && negb (bool_decide (priority_filter_of (priority task) = f_priority filter))
  then false
  else if truthy (trim (f_query filter)) then
    let term := toLowerCase (f_query filter) in
    includes (toLowerCase (title task)) term
    || includes (toLowerCase (description task)) term
  else true.

(** The callback given to [.sort] in [filteredTasks]. *)
Definition comparator (filter : FilterState) (a b : Task) : number :=
  if bool_decide (f_sort filter = sort_title) then
    Some (localeCompare (title a) (title b))
  else if bool_decide (f_sort filter = sort_priority) then
    Some (priorityRank (priority a) - priorityRank (priority b))%Z
  else if bool_decide (f_sort filter = sort_due) then
    if negb (has_dueDate a) && negb (has_dueDate b) then Some 0%Z
    else if negb (has_dueDate a) then Some 1%Z
    else if negb (has_dueDate b) then Some (-1)%Z
    else number_sub (getTime (default [] (dueDate a)))
                    (getTime (default [] (dueDate b)))
  else number_sub (getTime (createdAt b)) (getTime (createdAt a)).

End Projector.

(** [Array.prototype.sort].  The comparator's result is read through
    SortCompare, which takes NaN for +0.  The standard fixes the outcome
    for a consistent comparator, the stable sorted arrangement, which
    this insertion procedure computes (sortedness and stability are
    proved below); for other comparators the order is left to the
    engine, and the procedure stands for one engine. *)
Definition SortCompare {A} (comparefn : A → A → number) (x y : A) : Z :=
  default 0%Z (comparefn x y).

Fixpoint sort_insert {A} (comparefn : A → A → number) (x : A) (l : list A) : list A :=
  match l with
  | [] => [x]
  | y :: l' =>
      if (SortCompare comparefn x y <=? 0)%Z then x :: y :: l'
      else y :: sort_insert comparefn x l'
  end.

Fixpoint Array_sort {A} (comparefn : A → A → number) (l : list A) : list A :=
  match l with
  | [] => []
  | x :: l' => sort_insert comparefn x (Array_sort comparefn l')
  end.

(** *** Arrays as mutable objects

    [.sort] reorders its receiver in place, so the projector is run over
    a store of arrays: a location names an array, [[...a]] and [.filter]
    allocate, [.sort] overwrites. *)
Abbreviation loc := positive.
Abbreviation store := (gmap positive (list Task)).

Definition M (A : Type) : Type := store → A * store.

Definition ret {A} (a : A) : M A := λ σ, (a, σ).
Definition bind {A B} (m : M A) (k : A → M B) : M B :=
  λ σ, let '(a, σ') := m σ in k a σ'.

Definition contents (σ : store) (ℓ : loc) : list Task := default [] (σ !! ℓ).

Definition alloc (l : list Task) : M loc :=
  λ σ, let ℓ := fresh (dom σ) in (ℓ, <[ℓ := l]> σ).

Definition spread_m (ℓ : loc) : M loc :=
  λ σ, alloc (contents σ ℓ) σ.

Definition filter_m (p : Task → bool) (ℓ : loc) : M loc :=
  λ σ, alloc (Array_filter p (contents σ ℓ)) σ.

Definition sort_m (comparefn : Task → Task → number) (ℓ : loc) : M loc :=
  λ σ, (ℓ, <[ℓ := Array_sort comparefn (contents σ ℓ)]> σ).

Section Memo.
Context `{Host}.

(** The body of the [useMemo] callback: [tasks] is the location of the
    state array. *)
Definition filteredTasks (filter : FilterState) (tasks : loc) : M loc :=
  bind (spread_m tasks) (λ copy,
  bind (filter_m (keep filter) copy) (λ kept,
  sort_m (comparator filter) kept)).

(** The sequence handed to the renderer for a state array [ts]. *)
Definition displayed (filter : FilterState) (ts : list Task) : list Task :=
  let '(ℓ, σ) := filteredTasks filter 1%positive {[ 1%positive := ts ]} in
  contents σ ℓ.

End Memo.

(** ** JSON

    [JSON.parse] and [JSON.stringify] as ECMA-262 defines them, on code
    units.  A number is kept as the exact decimal [m * 10^e] read from
    the text (the engine rounds it to a double; task records hold no
    numbers). *)

#[local] Set Warnings "-register-all".
Inductive jsval :=
  | JNull
  | JBool (b : bool)
  | JNum (m e : Z)
  | JStr (s : jsstring)
  | JArr (elems : list jsval)
  | JObj (props : list (jsstring * jsval)).

Inductive presult (A : Type) :=
  | Parsed (a : A) (rest : jsstring)
  | Malformed
  | OutOfFuel.
Arguments Parsed {A} a rest.
Arguments Malformed {A}.
Arguments OutOfFuel {A}.

Definition presult_map {A B} (f : A → B) (r : presult A) : presult B :=
  match r with
  | Parsed a rest => Parsed (f a) rest
  | Malformed => Malformed
  | OutOfFuel => OutOfFuel
  end.

(** JSON white space: tab, line feed, carriage return, space. *)
Definition is_json_ws (c : N) : bool :=
  (c =? 9) || (c =? 10) || (c =? 13) || (c =? 32).

Fixpoint skip_ws (s : jsstring) : jsstring :=
  match s with
  | c :: s' => if is_json_ws c then skip_ws s' else s
  | [] => []
  end.

Definition is_digit (c : N) : bool := (48 <=? c) && (c <=? 57).

Definition hex_value (c : N) : option N :=
  if (48 <=? c) && (c <=? 57) then Some (c - 48)
  else if (65 <=? c) && (c <=? 70) then Some (c - 55)
  else if (97 <=? c) && (c <=? 102) then Some (c - 87)
  else None.

Definition hex4_value (h1 h2 h3 h4 : N) : option N :=
  match hex_value h1, hex_value h2, hex_value h3, hex_value h4 with
  | Some a, Some b, Some c, Some d => Some (4096 * a + 256 * b + 16 * c + d)
  | _, _, _, _ => None
  end.

(** The character a single-letter escape stands for. *)
Definition unescape (e : N) : option N :=
  if e =? 34 then Some 34
  else if e =? 92 then Some 92
  else if e =? 47 then Some 47
  else if e =? 98 then Some 8
  else if e =? 102 then Some 12
  else if e =? 110 then Some 10
  else if e =? 114 then Some 13
  else if e =? 116 then Some 9
  else None.

(** The characters of a string literal, after its opening quote, up to
    and including the closing quote. *)
Fixpoint parse_chars (s : jsstring) : presult jsstring :=
  match s with
  | [] => Malformed
  | c :: s' =>
      if c =? 34 then Parsed [] s'
      else if c =? 92 then
        match s' with
        | [] => Malformed
        | e :: s'' =>
            if e =? 117 then
              match s'' with
              | h1 :: h2 :: h3 :: h4 :: s3 =>
                  match hex4_value h1 h2 h3 h4 with
                  | Some u => presult_map (cons u) (parse_chars s3)
                  | None => Malformed
                  end
              | _ => Malformed
              end
            else
              match unescape e with
              | Some u => presult_map (cons u) (parse_chars s'')
              | None => Malformed
              end
        end
      else if c <? 32 then Malformed
      else presult_map (cons c) (parse_chars s')
  end.

Fixpoint span_digits (s : jsstring) : list N * jsstring :=
  match s with
  | c :: s' =>
      if is_digit c
      then let '(ds, r) := span_digits s' in (c :: ds, r)
      else ([], s)
  | [] => ([], [])
  end.

Definition digits_value (ds : list N) : Z :=
  foldl (λ acc d, acc * 10 + Z.of_N (d - 48))%Z 0%Z ds.

(** A number token: [-? int frac? exp?]. *)
Definition parse_number (s : jsstring) : presult (Z * Z) :=
  let '(neg, s1) :=
    match s with
    | c :: s' => if c =? 45 then (true, s') else (false, s)
    | [] => (false, s)
    end in
  let int_part :=
    match s1 with
    | c :: s2 =>
        if c =? 48 then Some ([c], s2)
        else if is_digit c then Some (span_digits s1)
        else None
    | [] => None
    end in
  match int_part with
  | None => Malformed
  | Some (ds, r) =>
      let frac :=
        match r with
        | c :: r' =>
            if c =? 46 then
              let '(fs, r2) := span_digits r' in
              match fs with [] => None | _ :: _ => Some (fs, r2) end
            else Some ([], r)
        | [] => Some ([], r)
        end in
      match frac with
      | None => Malformed
      | Some (fs, r2) =>
          let expo :=
            match r2 with
            | c :: r3 =>
                if (c =? 101) || (c =? 69) then
                  let '(eneg, r4) :=
                    match r3 with
                    | g :: r3' =>
                        if g =? 45 then (true, r3')
                        else if g =? 43 then (false, r3')
                        else (false, r3)
                    | [] => (false, r3)
                    end in
                  let '(es, r5) := span_digits r4 in
                  match es with
                  | [] => None
                  | _ :: _ =>
                      Some (if eneg then (- digits_value es)%Z else digits_value es, r5)
                  end
                else Some (0%Z, r2)
            | [] => Some (0%Z, r2)
            end in
          match expo with
          | None => Malformed
          | Some (ex, r5) =>
              let m := digits_value (ds ++ fs) in
              Parsed (if neg then (- m)%Z else m, (ex - Z.of_nat (length fs))%Z) r5
          end
      end
  end.

(** *** Objects: own properties in enumeration order *)

(** An array index: a canonical numeric string below 2^32 - 1. *)
Definition array_index (k : jsstring) : option N :=
  match k with
  | [] => None
  | c :: k' =>
      if forallb is_digit k && ((negb (c =? 48)) || bool_decide (k' = []))
         && (length k <=? 10)%nat
      then let n := Z.to_N (digits_value k) in
           if n <? 4294967295 then Some n else None
      else None
  end.

Fixpoint obj_get (k : jsstring) (props : list (jsstring * jsval)) : option jsval :=
  match props with
  | [] => None
  | (k', v) :: props' => if bool_decide (k' = k) then Some v else obj_get k props'
  end.

Fixpoint obj_replace (k : jsstring) (v : jsval) (props : list (jsstring * jsval))
    : list (jsstring * jsval) :=
  match props with
  | [] => []
  | (k', v') :: props' =>
      if bool_decide (k' = k) then (k, v) :: props'
      else (k', v') :: obj_replace k v props'
  end.

(** Where a new index key [n] goes: before the first key that is not an
    index or is a larger one. *)
Fixpoint obj_insert_index (n : N) (k : jsstring) (v : jsval)
    (props : list (jsstring * jsval)) : list (jsstring * jsval) :=
  match props with
  | [] => [(k, v)]
  | (k', v') :: props' =>
      match array_index k' with
      | Some n' =>
          if n' <? n then (k', v') :: obj_insert_index n k v props'
          else (k, v) :: props
      | None => (k, v) :: props
      end
  end.

(** CreateDataProperty: an existing key keeps its place; a new index key
    is ordered among the indices; any other new key comes last. *)
Definition obj_set (props : list (jsstring * jsval)) (kv : jsstring * jsval)
    : list (jsstring * jsval) :=
  let '(k, v) := kv in
  match obj_get k props with
  | Some _ => obj_replace k v props
  | None =>
      match array_index k with
      | Some n => obj_insert_index n k v props
      | None => props ++ [(k, v)]
      end
  end.

Definition make_object (members : list (jsstring * jsval)) : jsval :=
  JObj (foldl obj_set [] members).

(** *** The parser *)

Fixpoint parse_value (fuel : nat) (s : jsstring) : presult jsval :=
  match fuel with
  | O => OutOfFuel
  | S f =>
      match skip_ws s with
      | [] => Malformed
      | c :: s' =>
          if c =? 34 then presult_map JStr (parse_chars s')
          else if c =? 91 then
            match skip_ws s' with
            | d :: r =>
                if d =? 93 then Parsed (JArr []) r
                else presult_map JArr (parse_elements f s')
            | [] => Malformed
            end
          else if c =? 123 then
            match skip_ws s' with
            | d :: r =>
                if d =? 125 then Parsed (JObj []) r
                else presult_map make_object (parse_members f s')
            | [] => Malformed
            end
          else if startsWith (c :: s') (js "null") then Parsed JNull (drop 4 (c :: s'))
          else if startsWith (c :: s') (js "true") then Parsed (JBool true) (drop 4 (c :: s'))
          else if startsWith (c :: s') (js "false") then Parsed (JBool false) (drop 5 (c :: s'))
          else presult_map (λ me, JNum me.1 me.2) (parse_number (c :: s'))
      end
  end
with parse_elements (fuel : nat) (s : jsstring) : presult (list jsval) :=
  match fuel with
  | O => OutOfFuel
  | S f =>
      match parse_value f s with
      | Parsed v r =>
          match skip_ws r with
          | c :: r' =>
              if c =? 44 then presult_map (cons v) (parse_elements f r')
              else if c =? 93 then Parsed [v] r'
              else Malformed
          | [] => Malformed
          end
      | Malformed => Malformed
      | OutOfFuel => OutOfFuel
      end
  end
with parse_members (fuel : nat) (s : jsstring) : presult (list (jsstring * jsval)) :=
  match fuel with
  | O => OutOfFuel
  | S f =>
      match skip_ws s with
      | c :: s1 =>
          if c =? 34 then
            match parse_chars s1 with
            | Parsed k r =>
                match skip_ws r with
                | c2 :: r2 =>
                    if c2 =? 58 then
                      match parse_value f r2 with
                      | Parsed v r3 =>
                          match skip_ws r3 with
                          | c3 :: r4 =>
                              if c3 =? 44 then presult_map (cons (k, v)) (parse_members f r4)
                              else if c3 =? 125 then Parsed [(k, v)] r4
                              else Malformed
                          | [] => Malformed
                          end
                      | Malformed => Malformed
                      | OutOfFuel => OutOfFuel
                      end
                    else Malformed
                | [] => Malformed
                end
            | Malformed => Malformed
            | OutOfFuel => OutOfFuel
            end
          else Malformed
      | [] => Malformed
      end
  end.

(** The fuel that covers any text: two units per code unit, and one. *)
Definition parse_fuel (s : jsstring) : nat := S (length s + length s).

(** [JSON.parse(text)]: the whole text must be one value. *)
Definition JSON_parse (text : jsstring) : completion jsval :=
  match parse_value (parse_fuel text) text with
  | Parsed v rest =>
      match skip_ws rest with
      | [] => Normal v
      | _ :: _ => Throw SyntaxError
      end
  | Malformed => Throw SyntaxError
  | OutOfFuel => Throw SyntaxError
  end.

(** *** The serializer *)

Definition hex_digit (n : N) : N := if n <? 10 then 48 + n else 87 + n.

(** [\uXXXX], lower-case hexadecimal. *)
Definition unicode_escape (c : N) : jsstring :=
  [92; 117; hex_digit (c / 4096 mod 16); hex_digit (c / 256 mod 16);
   hex_digit (c / 16 mod 16); hex_digit (c mod 16)].

Definition is_high_surrogate (c : N) : bool := (55296 <=? c) && (c <=? 56319).
Definition is_low_surrogate (c : N) : bool := (56320 <=? c) && (c <=? 57343).

(** The text of one code unit that is not a surrogate. *)
Definition escape_char (c : N) : jsstring :=
  if c =? 8 then [92; 98]
  else if c =? 9 then [92; 116]
  else if c =? 10 then [92; 110]
  else if c =? 12 then [92; 102]
  else if c =? 13 then [92; 114]
  else if c =? 34 then [92; 34]
  else if c =? 92 then [92; 92]
  else if c <? 32 then unicode_escape c
  else [c].

(** QuoteJSONString walks the code points: a surrogate pair is copied, a
    surrogate on its own is written as an escape. *)
Fixpoint quote_chars (s : jsstring) : jsstring :=
  match s with
  | [] => []
  | c :: s' =>
      if is_high_surrogate c then
        match s' with
        | d :: s'' =>
            if is_low_surrogate d then c :: d :: quote_chars s''
            else unicode_escape c ++ quote_chars s'
        | [] => unicode_escape c
        end
      else if is_low_surrogate c then unicode_escape c ++ quote_chars s'
      else escape_char c ++ quote_chars s'
  end.

Definition QuoteJSONString (s : jsstring) : jsstring :=
  34 :: quote_chars s ++ [34].

Fixpoint join_commas (parts : list jsstring) : jsstring :=
  match parts with
  | [] => []
  | [p] => p
  | p :: parts' => p ++ 44 :: join_commas parts'
  end.

Definition priority_string (p : Priority) : jsstring :=
  match p with low => js "low" | medium => js "medium" | high => js "high" end.

Definition priority_of_string (s : jsstring) : option Priority :=
  if bool_decide (s = js "low") then Some low
  else if bool_decide (s = js "medium") then Some medium
  else if bool_decide (s = js "high") then Some high
  else None.

Definition json_member (k : string) (v : jsstring) : jsstring :=
  QuoteJSONString (js k) ++ 58 :: v.

(** SerializeJSONObject on a task: the properties in the order the
    object literal of [handleSubmit] creates them; a property whose
    value is [undefined] is left out. *)
Definition JSON_stringify_Task (t : Task) : jsstring :=
  123 :: join_commas
    ([ json_member "id" (QuoteJSONString (id t));
       json_member "title" (QuoteJSONString (title t));
       json_member "description" (QuoteJSONString (description t));
       json_member "completed" (if completed t then js "true" else js "false");
       json_member "createdAt" (QuoteJSONString (createdAt t)) ]
     ++ match dueDate t with
        | Some d => [ json_member "dueDate" (QuoteJSONString d) ]
        | None => []
        end
     ++ [ json_member "priority" (QuoteJSONString (priority_string (priority t))) ])
  ++ [125].

(** [JSON.stringify(tasks)] *)
Definition JSON_stringify (tasks : list Task) : jsstring :=
  91 :: join_commas (JSON_stringify_Task <$> tasks) ++ [93].

(** *** Task records as JavaScript values *)

Definition Task_to_js (t : Task) : jsval :=
  JObj ([ (js "id", JStr (id t));
          (js "title", JStr (title t));
          (js "description", JStr (description t));
          (js "completed", JBool (completed t));
          (js "createdAt", JStr (createdAt t)) ]
        ++ match dueDate t with
           | Some d => [ (js "dueDate", JStr d) ]
           | None => []
           end
        ++ [ (js "priority", JStr (priority_string (priority t))) ]).

Definition get_string (k : string) (o : list (jsstring * jsval)) : option jsstring :=
  match obj_get (js k) o with Some (JStr s) => Some s | _ => None end.

(** The value has the shape of the type [Task]: the six required
    properties with their types, and [dueDate] absent or a string. *)
Definition Task_of_js (v : jsval) : option Task :=
  match v with
  | JObj o =>
      i ← get_string "id" o;
      t ← get_string "title" o;
      d ← get_string "description" o;
      c ← match obj_get (js "completed") o with Some (JBool b) => Some b | _ => None end;
      ca ← get_string "createdAt" o;
      due ← match obj_get (js "dueDate") o with
            | None => Some None
            | Some (JStr s) => Some (Some s)
            | Some _ => None
            end;
      p ← get_string "priority" o ≫= priority_of_string;
      Some {| id := i; title := t; description := d; completed := c;
              createdAt := ca; dueDate := due; priority := p |}
  | _ => None
  end.

Definition Tasks_of_js (l : list jsval) : option (list Task) := mapM Task_of_js l.

(** ** Load and persist effects *)

(** The load effect.  [saved] is what [localStorage.getItem] returns
    ([None] for null), [tasks] the state before it.  [parsed as Task[]]
    is not a run-time check, so what the effect stores is whatever array
    the text denotes.  The second component counts [console.error]
    calls. *)
Definition load_effect (saved : option jsstring) (tasks : list jsval)
    : list jsval * nat :=
  match saved with
  | None => (tasks, 0%nat)
  | Some text =>
      if negb (truthy text) then (tasks, 0%nat)
      else
        match JSON_parse text with
        | Normal (JArr parsed) => (parsed, 0%nat)
        | Normal _ => (tasks, 0%nat)
        | Throw _ => (tasks, 1%nat)
        end
  end.

(** The collection after mounting: the state starts as [[]]. *)
Definition load (saved : option jsstring) : list jsval :=
  (load_effect saved []).1.

(** The persist effect: the text written to the storage slot. *)
Definition persist_effect (tasks : list Task) : jsstring := JSON_stringify tasks.

(** ** A reference host

    One concrete host, used to run the model on closed inputs: case
    mapping on the ASCII letters, collation by code unit, and the two
    forms of the date-time string format the page meets, the date
    [YYYY-MM-DD] of a date control and the [YYYY-MM-DDTHH:mm:ss.sssZ]
    that [toISOString] prints (years 0000 to 9999). *)
Module RefHost.

Definition lower_unit (c : N) : N :=
  if (65 <=? c) && (c <=? 90) then c + 32 else c.

Definition toLowerCase (s : jsstring) : jsstring := lower_unit <$> s.

Fixpoint localeCompare (s t : jsstring) : Z :=
  match s, t with
  | [], [] => 0
  | [], _ :: _ => -1
  | _ :: _, [] => 1
  | c :: s', d :: t' =>
      if c <? d then -1 else if d <? c then 1 else localeCompare s' t'
  end.

Definition days_from_civil (y m d : Z) : Z :=
  let y' := if (m <=? 2)%Z then (y - 1)%Z else y in
  let era := (y' / 400)%Z in
  let yoe := (y' - era * 400)%Z in
  let mp := if (m <=? 2)%Z then (m + 9)%Z else (m - 3)%Z in
  let doy := ((153 * mp + 2) / 5 + d - 1)%Z in
  let doe := (yoe * 365 + yoe / 4 - yoe / 100 + doy)%Z in
  (era * 146097 + doe - 719468)%Z.

Definition is_leap (y : Z) : bool :=
  ((y mod 4 =? 0) && negb (y mod 100 =? 0) || (y mod 400 =? 0))%Z.

Definition days_in_month (y m : Z) : Z :=
  if (m =? 2)%Z then (if is_leap y then 29 else 28)%Z
  else if ((m =? 4) || (m =? 6) || (m =? 9) || (m =? 11))%Z then 30%Z
  else 31%Z.

Definition number_of (ds : list N) : option Z :=
  if forallb is_digit ds then Some (digits_value ds) else None.

Definition parse_date (y1 y2 y3 y4 m1 m2 d1 d2 : N) : option Z :=
  y ← number_of [y1; y2; y3; y4];
  m ← number_of [m1; m2];
  d ← number_of [d1; d2];
  if ((1 <=? m) && (m <=? 12) && (1 <=? d) && (d <=? days_in_month y m))%Z
  then Some (days_from_civil y m d * 86400000)%Z
  else None.

Definition parse_time (h1 h2 mi1 mi2 s1 s2 f1 f2 f3 : N) : option Z :=
  h ← number_of [h1; h2];
  mi ← number_of [mi1; mi2];
  sec ← number_of [s1; s2];
  ms ← number_of [f1; f2; f3];
  if ((h <=? 23) && (mi <=? 59) && (sec <=? 59))%Z
  then Some (h * 3600000 + mi * 60000 + sec * 1000 + ms)%Z
  else None.

Definition Date_parse (s : jsstring) : option Z :=
  match s with
  | [y1; y2; y3; y4; 45; m1; m2; 45; d1; d2] =>
      parse_date y1 y2 y3 y4 m1 m2 d1 d2
  | [y1; y2; y3; y4; 45; m1; m2; 45; d1; d2; 84;
     h1; h2; 58; mi1; mi2; 58; s1; s2; 46; f1; f2; f3; 90] =>
      day ← parse_date y1 y2 y3 y4 m1 m2 d1 d2;
      t ← parse_time h1 h2 mi1 mi2 s1 s2 f1 f2 f3;
      Some (day + t)%Z
  | _ => None
  end.

Definition civil_from_days (z0 : Z) : Z * Z * Z :=
  let z := (z0 + 719468)%Z in
  let era := (z / 146097)%Z in
  let doe := (z - era * 146097)%Z in
  let yoe := ((doe - doe / 1460 + doe / 36524 - doe / 146096) / 365)%Z in
  let doy := (doe - (365 * yoe + yoe / 4 - yoe / 100))%Z in
  let mp := ((5 * doy + 2) / 153)%Z in
  let d := (doy - (153 * mp + 2) / 5 + 1)%Z in
  let m := if (mp <? 10)%Z then (mp + 3)%Z else (mp - 9)%Z in
  let y := (yoe + era * 400)%Z in
  (if (m <=? 2)%Z then (y + 1)%Z else y, m, d).

(** [n] in decimal on [width] digits. *)
Fixpoint pad (width : nat) (n : Z) : jsstring :=
  match width with
  | O => []
  | S w => pad w (n / 10) ++ [Z.to_N (48 + n mod 10)]
  end.

Definition Date_toISOString (tv : Z) : jsstring :=
  let day := (tv / 86400000)%Z in
  let t := (tv mod 86400000)%Z in
  let '(y, m, d) := civil_from_days day in
  pad 4 y ++ 45 :: pad 2 m ++ 45 :: pad 2 d ++ 84 ::
  pad 2 (t / 3600000) ++ 58 :: pad 2 (t / 60000 mod 60) ++ 58 ::
  pad 2 (t / 1000 mod 60) ++ 46 :: pad 3 (t mod 1000) ++ [90].

#[export] Instance host : Host :=
  Build_Host toLowerCase localeCompare Date_parse Date_toISOString.

End RefHost.

(** The status and priority predicates of the filtering pipeline, as the
    specification words them: "active" keeps the tasks not completed,
    "completed" the completed ones, "all" every task; a priority other
    than "all" keeps the exact matches. *)
Definition status_pred (filter : FilterState) (task : Task) : bool :=
  match f_status filter with
  | status_all => true
  | status_active => negb (completed task)
  | status_completed => completed task
  end.

Definition priority_pred (filter : FilterState) (task : Task) : bool :=
  match f_priority filter with
  | prio_all => true
  | p => bool_decide (priority_filter_of (priority task) = p)
  end.

(** The order the specification gives for the "due" key: tasks with a
    due date by ascending timestamp, a task without one after any task
    that has one, two tasks without one ranked alike. *)
Section DueOrder.
Context `{Host}.

(** The due timestamp of a task that has a due date. *)
Definition due_time (a : Task) : number :=
  if has_dueDate a then getTime (default [] (dueDate a)) else None.

(** The due date of the task, if it has one, denotes a timestamp. *)
Definition due_valid (a : Task) : Prop :=
  has_dueDate a = true → is_Some (due_time a).

Definition due_le (a b : Task) : Prop :=
  match due_time a, due_time b with
  | Some ta, Some tb => (ta ≤ tb)%Z
  | Some _, None => True
  | None, Some _ => False
  | None, None => True
  end.

End DueOrder.

(** [Array.isArray] *)
Definition is_array (v : jsval) : bool :=
  match v with JArr _ => true | _ => false end.

(** The text [text] is read as the value [v] by the parser, whatever
    follows it, as soon as the fuel is at least [m]. *)
Definition reads_as (text : jsstring) (v : jsval) (m : nat) : Prop :=
  ∀ fuel tail, (m ≤ fuel)%nat → parse_value fuel (text ++ tail) = Parsed v tail.

(** ** The controls of the task list *)

(** The patches the page builds: the checkbox writes [completed], the
    "Cycle priority" button writes [priority]. *)
Definition completed_patch (checked : bool) : Patch :=
  {| p_id := None; p_title := None; p_description := None;
     p_completed := Some checked; p_createdAt := None; p_dueDate := None;
     p_priority := None |}.

Definition priority_patch (p : Priority) : Patch :=
  {| p_id := None; p_title := None; p_description := None;
     p_completed := None; p_createdAt := None; p_dueDate := None;
     p_priority := Some p |}.

(** The priority the "Cycle priority" button computes from the shown
    one: high, then medium, then low, then high again. *)
Definition cyclePriority (p : Priority) : Priority :=
  match p with
  | high => medium
  | medium => low
  | low => high
  end.

(** The handlers of one row; [task] is the task the row shows. *)
Definition checkbox_onChange (task : Task) (checked : bool)
    (prev : list Task) : list Task :=
  updateTask (id task) (completed_patch checked) prev.

Definition cycle_onClick (task : Task) (prev : list Task) : list Task :=
  updateTask (id task) (priority_patch (cyclePriority (priority task))) prev.

Definition delete_onClick (task : Task) (prev : list Task) : list Task :=
  deleteTask (id task) prev.

(** [completedCount > 0 && ...]: the "Clear completed" button is shown. *)
Definition showClearCompleted (tasks : list Task) : bool :=
  (0 <? completedCount tasks)%nat.

(** [filteredTasks.length === 0 && ...]: the placeholder row is shown. *)
Definition showEmptyState (shown : list Task) : bool :=
  (length shown =? 0)%nat.

(** ** What reaches the handlers *)

Section Form.
Context `{Host}.


End Form.


(** The patches passed to [updateTask]: the checkbox passes
    [{ completed }], the "Cycle priority" button passes [{ priority }];
    [updateTask] has no other caller. *)
Inductive passed_patch : Patch → Prop :=
  | passed_completed (checked : bool) : passed_patch (completed_patch checked)
  | passed_priority (p : Priority) : passed_patch (priority_patch p).

(** * Properties *)

(** ** The model on closed inputs *)

Example trim_example : trim (js "  Buy milk  ") = js "Buy milk".
Proof. reflexivity. Qed.

Example trim_line_terminators : trim [10; 13; 8232; 97; 32; 98; 65279] = [97; 32; 98].
Proof. reflexivity. Qed.

Example includes_example :
  includes (js "write report") (js "te rep") = true
  ∧ includes (js "write report") (js "tr") = false
  ∧ includes [] [] = true.
Proof. repeat split. Qed.

Example Date_parse_epoch : RefHost.Date_parse (js "1970-01-01") = Some 0%Z.
Proof. reflexivity. Qed.

Example Date_parse_iso :
  RefHost.Date_parse (js "2024-02-29T12:34:56.789Z") = Some 1709210096789%Z.
Proof. reflexivity. Qed.

Example Date_parse_not_a_day : RefHost.Date_parse (js "2023-02-29") = None.
Proof. reflexivity. Qed.

Example Date_toISOString_example :
  RefHost.Date_toISOString 1709210096789 = js "2024-02-29T12:34:56.789Z".
Proof. reflexivity. Qed.

Example JSON_parse_example :
  JSON_parse (js " [1, -2.50e3, null, [true, {}]] ") =
    Normal (JArr [JNum 1 0; JNum (-250) 1; JNull; JArr [JBool true; JObj []]]).
Proof. vm_compute. reflexivity. Qed.

Example JSON_parse_trailing_comma : JSON_parse (js "[1,]") = Throw SyntaxError.
Proof. vm_compute. reflexivity. Qed.

(** Property order: index keys first and ascending, then the other keys
    as they come; a repeated key keeps its place and takes the last
    value. *)
Example make_object_order :
  make_object [(js "b", JNull); (js "10", JNull); (js "a", JNull);
               (js "9", JNull); (js "b", JBool true)] =
    JObj [(js "9", JNull); (js "10", JNull); (js "b", JBool true); (js "a", JNull)].
Proof. vm_compute. reflexivity. Qed.

(** The text written for one task: a quote and a line feed in the title
    are escaped, the absent due date is left out. *)
Example JSON_stringify_example :
  JSON_stringify
    [ {| id := js "u1"; title := [97; 34; 10]; description := [];
         completed := false; createdAt := js "2024-02-29T12:34:56.789Z";
         dueDate := None; priority := high |} ] =
  js "[{" ++ quoted "id" ++ js ":" ++ quoted "u1" ++ js ","
  ++ quoted "title" ++ js ":" ++ [34; 97; 92; 34; 92; 110; 34] ++ js ","
  ++ quoted "description" ++ js ":" ++ [34; 34] ++ js ","
  ++ quoted "completed" ++ js ":false,"
  ++ quoted "createdAt" ++ js ":" ++ quoted "2024-02-29T12:34:56.789Z" ++ js ","
  ++ quoted "priority" ++ js ":" ++ quoted "high" ++ js "}]".
Proof. vm_compute. reflexivity. Qed.

(** A surrogate pair is written as it is, a surrogate on its own as an
    escape. *)
Example quote_chars_surrogates :
  quote_chars [55357; 56832; 56832] = [55357; 56832] ++ js "\ude00".
Proof. vm_compute. reflexivity. Qed.

(** Sorting by priority puts high before medium before low, whatever
    the input order. *)
Example sort_by_priority :
  let mk i p := {| id := i; title := js "T"; description := [];
                   completed := false; createdAt := js "2024-02-29T12:34:56.789Z";
                   dueDate := None; priority := p |} in
  let filter := {| f_query := []; f_status := status_all;
                   f_priority := prio_all; f_sort := sort_priority |} in
  priority <$> @displayed RefHost.host filter
    [mk (js "1") low; mk (js "2") high; mk (js "3") medium] = [high; medium; low].
Proof. vm_compute. reflexivity. Qed.

(** The default key shows the newest task first. *)
Example sort_by_created :
  let mk i c := {| id := i; title := js "T"; description := [];
                   completed := false; createdAt := c;
                   dueDate := None; priority := medium |} in
  id <$> @displayed RefHost.host defaultFilter
    [mk (js "old") (js "2024-02-29T12:34:56.789Z");
     mk (js "new") (js "2024-03-01T08:00:00.000Z")] = [js "new"; js "old"].
Proof. vm_compute. reflexivity. Qed.

(** ** Trimming *)

Lemma trimStart_nil_iff (s : jsstring) :
  trimStart s = [] ↔ forallb is_whitespace s = true.
Proof.
  induction s as [|c s IH]; simpl; [done|].
  destruct (is_whitespace c); simpl; [exact IH|].
  split; intros ?; discriminate.
Qed.

Lemma forallb_rev {A} (p : A → bool) (l : list A) :
  forallb p (rev l) = forallb p l.
Proof.
  induction l as [|x l IH]; simpl; [done|].
  rewrite forallb_app, IH. simpl. rewrite andb_true_r. apply andb_comm.
Qed.

Lemma trimStart_whitespace_left (s : jsstring) :
  forallb is_whitespace (trimStart s) = true → forallb is_whitespace s = true.
Proof.
  induction s as [|c s IH]; simpl; [done|].
  destruct (is_whitespace c) eqn:Hc; simpl; [exact IH|].
  rewrite Hc. done.
Qed.

(** A string trims to nothing exactly when it is empty or made of white
    space only. *)
Lemma trim_nil_iff (s : jsstring) :
  trim s = [] ↔ forallb is_whitespace s = true.
Proof.
  unfold trim, trimEnd. split.
  - intros Hr. apply (f_equal (@rev N)) in Hr. rewrite rev_involutive in Hr.
    simpl in Hr. apply trimStart_nil_iff in Hr. rewrite forallb_rev in Hr.
    by apply trimStart_whitespace_left.
  - intros Hs. apply trimStart_nil_iff in Hs. by rewrite Hs.
Qed.

Lemma truthy_false_iff (s : jsstring) : truthy s = false ↔ s = [].
Proof. by destruct s. Qed.

Lemma truthy_true_iff (s : jsstring) : truthy s = true ↔ s ≠ [].
Proof. by destruct s. Qed.

(** ** Array helpers *)

Lemma Array_map_fmap {A B} (f : A → B) (l : list A) : Array_map f l = f <$> l.
Proof. induction l as [|x l IH]; simpl; [done|]. by rewrite IH. Qed.

Lemma Array_filter_filter {A} (p : A → bool) (l : list A) :
  Array_filter p l = filter (λ x, p x = true) l.
Proof.
  induction l as [|x l IH]; simpl; [done|].
  rewrite filter_cons, IH. destruct (p x); by case_decide.
Qed.

Lemma Array_filter_ext {A} (p q : A → bool) (l : list A) :
  (∀ x, p x = q x) → Array_filter p l = Array_filter q l.
Proof.
  intros Hpq. induction l as [|x l IH]; simpl; [done|]. by rewrite Hpq, IH.
Qed.

Lemma Array_filter_length {A} (p : A → bool) (l : list A) :
  length l = (length (Array_filter p l) + length (Array_filter (λ x, negb (p x)) l))%nat.
Proof.
  induction l as [|x l IH]; simpl; [done|].
  destruct (p x); simpl; lia.
Qed.

(** ** Adding a task *)



(** C2: for every draft whose title is empty or consists only of white
    space, [handleSubmit] returns normally with the collection (and the
    draft) exactly as they were. *)
Theorem handleSubmit_blank_title `{Host} (uuid : jsstring) (now : Z)
    (draft : Draft) (prev : list Task) :
  Forall (λ c, is_whitespace c = true) (d_title draft) →
  handleSubmit uuid now draft prev = Normal (prev, draft)
  ∧ tasks_after (handleSubmit uuid now draft prev) prev = prev.
Proof.
  intros Hws.
  assert (Hall : forallb is_whitespace (d_title draft) = true).
  { induction Hws as [|c s Hc _ IH]; simpl; [done|]. by rewrite Hc. }
  apply trim_nil_iff in Hall as Hws'. clear Hws. rename Hws' into Hws.
  unfold handleSubmit. rewrite Hws. done.
Qed.

Lemma handleSubmit_blank_title_witness :
  let draft := {| d_title := [32; 9; 160]; d_description := js "d";
                  d_dueDate := js "x"; d_priority := low |} in
  let prev := [ {| id := js "1"; title := js "A"; description := [];
                   completed := true; createdAt := js "2024-02-29T12:34:56.789Z";
                   dueDate := None; priority := medium |} ] in
  @handleSubmit RefHost.host (js "u-1") 0 draft prev = Normal (prev, draft).
Proof.
  intros draft prev.
  apply (@handleSubmit_blank_title RefHost.host (js "u-1") 0 draft prev).
  repeat constructor.
Defined.

(** ** Clearing completed tasks *)

(** C3: [clearCompleted] leaves exactly the tasks that are not completed:
    the result is the sub-sequence of the collection selected by
    [completed = false], so it holds no completed task, holds every other
    task as it was, and keeps their order; the tasks removed are as many
    as the completed ones. *)
Theorem clearCompleted_spec (prev : list Task) :
  clearCompleted prev = filter (λ t, completed t = false) prev
  ∧ clearCompleted prev `sublist_of` prev
  ∧ (∀ t, t ∈ clearCompleted prev ↔ t ∈ prev ∧ completed t = false)
  ∧ length prev = (length (clearCompleted prev) + completedCount prev)%nat.
Proof.
  assert (Heq : clearCompleted prev = filter (λ t, completed t = false) prev).
  { unfold clearCompleted. rewrite Array_filter_filter.
    apply list_filter_iff. intros t. by destruct (completed t). }
  split; [exact Heq|]. split; [|split].
  - rewrite Heq. apply sublist_filter.
  - intros t. rewrite Heq, list_elem_of_filter. tauto.
  - unfold clearCompleted, completedCount.
    rewrite (Array_filter_length completed prev) at 1.
    rewrite Nat.add_comm. f_equal.
Qed.

(** ** Updating a task *)

(** A patch that carries neither an id nor a createdAt leaves both
    fields of every task as they were, position by position. *)
Lemma updateTask_identity_frame (i : jsstring) (patch : Patch) (prev : list Task) :
  p_id patch = None →
  p_createdAt patch = None →
  id <$> updateTask i patch prev = id <$> prev
  ∧ createdAt <$> updateTask i patch prev = createdAt <$> prev.
Proof.
  intros Hid Hca. unfold updateTask. rewrite Array_map_fmap, <- !list_fmap_compose.
  split; apply list_fmap_ext; intros k t _; simpl;
    case_bool_decide; try done; unfold spread_patch; simpl.
  - by rewrite Hid.
  - by rewrite Hca.
Qed.

(** C7: for every task of the collection and every patch passed to
    [updateTask], the id and the createdAt of the task are the same after
    the update as before, position by position, and the collection has
    as many tasks. *)
Theorem updateTask_keeps_identity (i : jsstring) (patch : Patch) (prev : list Task) :
  passed_patch patch →
  id <$> updateTask i patch prev = id <$> prev
  ∧ createdAt <$> updateTask i patch prev = createdAt <$> prev
  ∧ length (updateTask i patch prev) = length prev.
Proof.
  intros Hp.
  destruct (updateTask_identity_frame i patch prev) as [Hid Hca];
    [by destruct Hp|by destruct Hp|].
  split; [exact Hid|]. split; [exact Hca|].
  unfold updateTask. by rewrite Array_map_fmap, length_fmap.
Qed.

Lemma updateTask_keeps_identity_witness :
  let t := {| id := js "a"; title := js "T"; description := [];
              completed := false; createdAt := js "2024-02-29T12:34:56.789Z";
              dueDate := None; priority := medium |} in
  id <$> updateTask (js "a") (completed_patch true) [t] = [js "a"]
  ∧ createdAt <$> updateTask (js "a") (completed_patch true) [t]
    = [js "2024-02-29T12:34:56.789Z"]
  ∧ completed <$> updateTask (js "a") (completed_patch true) [t] = [true].
Proof.
  intros t.
  destruct (updateTask_keeps_identity (js "a") (completed_patch true) [t])
    as (Hid & Hca & _); [constructor|].
  split; [exact Hid|]. split; [exact Hca|]. vm_compute. reflexivity.
Defined.

(** ** The filtering stage *)

Section Filtering.
Context `{Host}.

(** The callback is the conjunction of the three predicates; the query
    is trimmed for the emptiness test only. *)
Lemma keep_unfold (filter : FilterState) (task : Task) :
  keep filter task =
    status_pred filter task && priority_pred filter task
    && (if truthy (trim (f_query filter))
        then includes (toLowerCase (title task)) (toLowerCase (f_query filter))
             || includes (toLowerCase (description task)) (toLowerCase (f_query filter))
        else true).
Proof.
  unfold keep, status_pred, priority_pred.
  destruct (f_status filter), (completed task), (f_priority filter),
    (priority task); simpl; try reflexivity;
    destruct (truthy (trim (f_query filter))); reflexivity.
Qed.

End Filtering.

(** C5, as the code has it: when the query is empty after trimming, the
    filtering stage keeps exactly the tasks that pass the status and the
    priority predicates; the query removes nothing more. *)
Theorem empty_query_keeps_by_status_and_priority `{Host}
    (filter : FilterState) (tasks : list Task) :
  trim (f_query filter) = [] →
  (∀ task, keep filter task = status_pred filter task && priority_pred filter task)
  ∧ Array_filter (keep filter) tasks =
      Array_filter (λ task, status_pred filter task && priority_pred filter task) tasks.
Proof.
  intros Hq.
  assert (Hk : ∀ task,
    keep filter task = status_pred filter task && priority_pred filter task).
  { intros task. rewrite keep_unfold, Hq. simpl. by rewrite andb_true_r. }
  split; [exact Hk|]. by apply Array_filter_ext.
Qed.

Lemma empty_query_keeps_by_status_and_priority_witness :
  let filter := {| f_query := [32; 32]; f_status := status_active;
                   f_priority := prio_all; f_sort := sort_created |} in
  let a := {| id := js "1"; title := js "A"; description := [];
              completed := false; createdAt := js "2024-02-29T12:34:56.789Z";
              dueDate := None; priority := medium |} in
  let b := {| id := js "2"; title := js "B"; description := [];
              completed := true; createdAt := js "2024-02-29T12:34:56.789Z";
              dueDate := None; priority := medium |} in
  Array_filter (@keep RefHost.host filter) [a; b] = [a].
Proof.
  intros filter a b.
  destruct (@empty_query_keeps_by_status_and_priority RefHost.host filter [a; b])
    as [_ Hf]; [reflexivity|].
  rewrite Hf. reflexivity.
Defined.

(** C5 as stated fails: with an empty query the status predicate still
    decides; a completed task is dropped under the "active" filter. *)
Lemma empty_query_does_not_keep_everything :
  let filter := {| f_query := []; f_status := status_active;
                   f_priority := prio_all; f_sort := sort_created |} in
  let b := {| id := js "2"; title := js "B"; description := [];
              completed := true; createdAt := js "2024-02-29T12:34:56.789Z";
              dueDate := None; priority := medium |} in
  trim (f_query filter) = []
  ∧ @keep RefHost.host filter b = false
  ∧ Array_filter (@keep RefHost.host filter) [b] = [].
Proof. vm_compute. repeat split. Qed.

(** C10: when the query is non-empty after trimming and differs from its
    trimmed form, the query predicate looks for the whole lower-cased
    query, white space included, in the lower-cased title or description;
    the trimmed form serves the emptiness test only. *)
Theorem query_matches_untrimmed `{Host} (filter : FilterState) (task : Task) :
  trim (f_query filter) ≠ [] →
  f_query filter ≠ trim (f_query filter) →
  keep filter task =
    status_pred filter task && priority_pred filter task
    && (includes (toLowerCase (title task)) (toLowerCase (f_query filter))
        || includes (toLowerCase (description task)) (toLowerCase (f_query filter))).
Proof.
  intros Hq _. rewrite keep_unfold.
  apply truthy_true_iff in Hq. by rewrite Hq.
Qed.

(** The query [" a"] does not select the task titled ["a"], though the
    trimmed query ["a"] occurs in that title. *)
Lemma query_matches_untrimmed_witness :
  let filter := {| f_query := js " a"; f_status := status_all;
                   f_priority := prio_all; f_sort := sort_created |} in
  let task := {| id := js "1"; title := js "a"; description := [];
                 completed := false; createdAt := js "2024-02-29T12:34:56.789Z";
                 dueDate := None; priority := medium |} in
  @keep RefHost.host filter task = false
  ∧ includes (RefHost.toLowerCase (title task))
             (RefHost.toLowerCase (trim (f_query filter))) = true.
Proof.
  intros filter task. split; [|reflexivity].
  rewrite (@query_matches_untrimmed RefHost.host filter task).
  - reflexivity.
  - vm_compute. discriminate.
  - vm_compute. discriminate.
Defined.

(** ** The projector over the array store *)

Section Purity.
Context `{Host}.

Lemma contents_lookup (σ : store) (ℓ : loc) (ts : list Task) :
  σ !! ℓ = Some ts → contents σ ℓ = ts.
Proof. unfold contents. by intros ->. Qed.

Lemma alloc_spec (l : list Task) (σ : store) :
  ∃ ℓ, alloc l σ = (ℓ, <[ℓ := l]> σ) ∧ σ !! ℓ = None.
Proof.
  exists (fresh (dom σ)). split; [done|].
  apply not_elem_of_dom, is_fresh.
Qed.

(** What one run of the memo body does to the store: two arrays are
    allocated, the second one is sorted in place and returned; the
    arrays that existed are not written. *)
Lemma filteredTasks_run (filter : FilterState) (σ : store) (tasks : loc) (ts : list Task) :
  σ !! tasks = Some ts →
  ∃ copy kept,
    σ !! copy = None ∧ copy ≠ kept ∧ σ !! kept = None
    ∧ filteredTasks filter tasks σ =
        (kept, <[kept := Array_sort (comparator filter) (Array_filter (keep filter) ts)]>
                 (<[kept := Array_filter (keep filter) ts]> (<[copy := ts]> σ))).
Proof.
  intros Hts. unfold filteredTasks, bind, spread_m, filter_m, sort_m.
  rewrite (contents_lookup _ _ _ Hts).
  destruct (alloc_spec ts σ) as (copy & -> & Hcopy).
  assert (Hc : contents (<[copy:=ts]> σ) copy = ts).
  { apply contents_lookup, lookup_insert_eq. }
  rewrite Hc.
  destruct (alloc_spec (Array_filter (keep filter) ts) (<[copy:=ts]> σ))
    as (kept & -> & Hkept).
  assert (Hne : copy ≠ kept).
  { intros ->. by rewrite lookup_insert_eq in Hkept. }
  rewrite lookup_insert_ne in Hkept by done.
  exists copy, kept. repeat split; try done.
  f_equal. f_equal. f_equal. apply contents_lookup, lookup_insert_eq.
Qed.

(** The displayed sequence is the sorted selection of the state array. *)
Lemma displayed_eq (filter : FilterState) (ts : list Task) :
  displayed filter ts = Array_sort (comparator filter) (Array_filter (keep filter) ts).
Proof.
  unfold displayed.
  destruct (filteredTasks_run filter {[ 1%positive := ts ]} 1%positive ts)
    as (copy & kept & _ & _ & _ & ->); [apply lookup_singleton_eq|].
  apply contents_lookup, lookup_insert_eq.
Qed.

End Purity.

(** C8: computing the projection leaves the state array as it was (and
    every other array that existed), returns a newly allocated array, and
    the sequence in it depends on the state array's elements and the
    filter only: it is [displayed filter ts] in whichever store the
    computation runs, so a second computation from the same inputs, in
    the store the first has left or in any other, gives the same
    sequence. *)
Theorem filteredTasks_pure `{Host} (filter : FilterState) (σ : store)
    (tasks : loc) (ts : list Task) :
  σ !! tasks = Some ts →
  ∃ out σ',
    filteredTasks filter tasks σ = (out, σ')
    ∧ σ' !! tasks = Some ts
    ∧ (∀ ℓ, is_Some (σ !! ℓ) → σ' !! ℓ = σ !! ℓ)
    ∧ σ !! out = None
    ∧ σ' !! out = Some (displayed filter ts)
    ∧ ∃ out2 σ'',
        filteredTasks filter tasks σ' = (out2, σ'')
        ∧ σ'' !! tasks = Some ts
        ∧ σ'' !! out2 = Some (displayed filter ts)
        ∧ σ'' !! out = Some (displayed filter ts).
Proof.
  intros Hts.
  assert (Hrun : ∀ (σ : store), σ !! tasks = Some ts →
    ∃ out σ', filteredTasks filter tasks σ = (out, σ')
      ∧ (∀ ℓ, is_Some (σ !! ℓ) → σ' !! ℓ = σ !! ℓ)
      ∧ σ !! out = None
      ∧ σ' !! out = Some (displayed filter ts)).
  { clear σ Hts. intros σ Hts.
    destruct (filteredTasks_run filter σ tasks ts Hts)
      as (copy & kept & Hcopy & Hne & Hkept & Hrun).
    eexists _, _. split; [exact Hrun|]. split; [|split].
    - intros ℓ [v Hv].
      rewrite !lookup_insert_ne; [done|congruence..].
    - exact Hkept.
    - rewrite displayed_eq. apply lookup_insert_eq. }
  destruct (Hrun σ Hts) as (out & σ' & Hrun1 & Hframe & Hfresh & Hout).
  assert (Hts' : σ' !! tasks = Some ts) by (rewrite Hframe; eauto).
  exists out, σ'. repeat (split; [done|]).
  destruct (Hrun σ' Hts') as (out2 & σ'' & Hrun2 & Hframe2 & _ & Hout2).
  exists out2, σ''. split; [done|].
  split; [rewrite Hframe2; eauto|].
  split; [done|]. rewrite Hframe2; eauto.
Qed.

Lemma filteredTasks_pure_witness :
  let a := {| id := js "1"; title := js "A"; description := [];
              completed := false; createdAt := js "2024-02-29T12:34:56.789Z";
              dueDate := None; priority := low |} in
  let b := {| id := js "2"; title := js "B"; description := [];
              completed := false; createdAt := js "2024-03-01T00:00:00.000Z";
              dueDate := None; priority := high |} in
  let σ : store := {[ 5%positive := [a; b] ]} in
  ∃ out σ',
    @filteredTasks RefHost.host defaultFilter 5%positive σ = (out, σ')
    ∧ σ' !! 5%positive = Some [a; b]
    ∧ σ' !! out = Some [b; a].
Proof.
  intros a b σ.
  destruct (@filteredTasks_pure RefHost.host defaultFilter σ 5%positive [a; b])
    as (out & σ' & Hrun & Hin & _ & _ & Hout & _).
  - reflexivity.
  - exists out, σ'. split; [exact Hrun|]. split; [exact Hin|].
    rewrite Hout. vm_compute. reflexivity.
Defined.

(** ** Sorting *)

Section Sorting.
Context {A : Type} (comparefn : A → A → number).

Lemma sort_insert_perm (x : A) (l : list A) : sort_insert comparefn x l ≡ₚ x :: l.
Proof.
  induction l as [|y l IH]; simpl; [done|].
  destruct (SortCompare comparefn x y <=? 0)%Z; [done|].
  rewrite IH. apply Permutation_swap.
Qed.

Lemma Array_sort_perm (l : list A) : Array_sort comparefn l ≡ₚ l.
Proof.
  induction l as [|x l IH]; simpl; [done|].
  by rewrite sort_insert_perm, IH.
Qed.

(** Stability: elements of a class [q] that the comparator never puts
    strictly after one another come out in the order they went in. *)
Lemma sort_insert_filter (q : A → bool) (x : A) (l : list A) :
  (∀ y, y ∈ l → q x = true → q y = true → (SortCompare comparefn x y ≤ 0)%Z) →
  Array_filter q (sort_insert comparefn x l) = Array_filter q (x :: l).
Proof.
  induction l as [|y l IH]; intros Hq; [done|].
  cbn [sort_insert].
  destruct (SortCompare comparefn x y <=? 0)%Z eqn:Hc; [done|].
  apply Z.leb_gt in Hc. cbn [Array_filter].
  rewrite IH by (intros z Hz; apply Hq; by right).
  cbn [Array_filter].
  destruct (q x) eqn:Hx, (q y) eqn:Hy; try done.
  specialize (Hq y ltac:(left) eq_refl Hy). lia.
Qed.

Lemma Array_sort_filter (q : A → bool) (l : list A) :
  (∀ x y, x ∈ l → y ∈ l → q x = true → q y = true →
     (SortCompare comparefn x y ≤ 0)%Z) →
  Array_filter q (Array_sort comparefn l) = Array_filter q l.
Proof.
  induction l as [|x l IH]; intros Hq; [done|].
  cbn [Array_sort]. rewrite sort_insert_filter.
  - cbn [Array_filter]. rewrite IH; [done|].
    intros y z Hy Hz. apply Hq; by right.
  - intros y Hy. rewrite Array_sort_perm in Hy. apply Hq; [left|by right].
Qed.

(** On a set of elements [P] where the comparator decides a total
    preorder [R], sorting arranges the elements along [R]. *)
Context (P : A → Prop) (R : A → A → Prop).
Hypothesis R_spec :
  ∀ x y, P x → P y → (SortCompare comparefn x y ≤ 0)%Z ↔ R x y.
Hypothesis R_total : ∀ x y, P x → P y → R x y ∨ R y x.
Hypothesis R_trans : ∀ x y z, P x → P y → P z → R x y → R y z → R x z.

Lemma sort_insert_sorted (x : A) (l : list A) :
  P x → Forall P l → StronglySorted R l →
  StronglySorted R (sort_insert comparefn x l).
Proof.
  intros Hx. induction l as [|y l IH]; intros HP Hs; simpl.
  { repeat constructor. }
  apply Forall_cons in HP as [Hy HP].
  apply StronglySorted_inv in Hs as [Hs Hyl].
  destruct (SortCompare comparefn x y <=? 0)%Z eqn:Hc.
  - apply Z.leb_le, R_spec in Hc; [|done..].
    constructor; [by constructor|].
    constructor; [done|].
    rewrite Forall_forall in Hyl, HP |- *. intros z Hz.
    apply (R_trans x y z); auto.
  - apply Z.leb_gt in Hc.
    assert (Hyx : R y x).
    { destruct (R_total x y) as [Hxy|Hyx]; [done..| |done].
      apply R_spec in Hxy; [lia|done..]. }
    constructor; [by apply IH|].
    rewrite sort_insert_perm. by constructor.
Qed.

Lemma Array_sort_sorted (l : list A) :
  Forall P l → StronglySorted R (Array_sort comparefn l).
Proof.
  induction l as [|x l IH]; intros HP; simpl; [constructor|].
  apply Forall_cons in HP as [Hx HP].
  apply sort_insert_sorted; [done| |by apply IH].
  by rewrite Array_sort_perm.
Qed.

End Sorting.

Lemma StronglySorted_lookup {A} (R : A → A → Prop) (l : list A) (i j : nat) (a b : A) :
  StronglySorted R l → (i < j)%nat → l !! i = Some a → l !! j = Some b → R a b.
Proof.
  intros Hs. revert i j. induction Hs as [|x l Hs IH Hx]; intros i j Hij Hi Hj.
  { by rewrite lookup_nil in Hi. }
  destruct j as [|j]; [lia|]. simpl in Hj.
  destruct i as [|i]; simpl in Hi.
  - injection Hi as <-. rewrite Forall_forall in Hx.
    apply Hx. by eapply list_elem_of_lookup_2.
  - apply (IH i j); [lia|done..].
Qed.

Lemma Array_filter_Forall {A} (P : A → Prop) (p : A → bool) (l : list A) :
  Forall P l → Forall P (Array_filter p l).
Proof.
  rewrite Array_filter_filter. intros HP.
  rewrite Forall_forall in HP |- *. intros x Hx.
  apply list_elem_of_filter in Hx as [_ Hx]. auto.
Qed.

Section DueSort.
Context `{Host}.
Variable filter : FilterState.
Hypothesis by_due : f_sort filter = sort_due.

Lemma comparator_due (a b : Task) :
  comparator filter a b =
    if negb (has_dueDate a) && negb (has_dueDate b) then Some 0%Z
    else if negb (has_dueDate a) then Some 1%Z
    else if negb (has_dueDate b) then Some (-1)%Z
    else number_sub (due_time a) (due_time b).
Proof.
  unfold comparator, due_time. rewrite by_due. simpl.
  by destruct (has_dueDate a), (has_dueDate b).
Qed.

Lemma due_le_spec (a b : Task) :
  due_valid a → due_valid b →
  (SortCompare (comparator filter) a b ≤ 0)%Z ↔ due_le a b.
Proof.
  unfold SortCompare, due_valid, due_le. rewrite comparator_due.
  unfold due_time.
  destruct (has_dueDate a), (has_dueDate b); simpl; intros Ha Hb.
  - destruct Ha as [ta ->]; [done|]. destruct Hb as [tb ->]; [done|].
    simpl. lia.
  - destruct Ha as [ta ->]; [done|]. simpl. split; [done|lia].
  - destruct Hb as [tb ->]; [done|]. simpl. split; [lia|done].
  - simpl. split; [done|lia].
Qed.

Lemma due_le_total (a b : Task) : due_le a b ∨ due_le b a.
Proof.
  unfold due_le. destruct (due_time a), (due_time b); try lia; tauto.
Qed.

Lemma due_le_trans (a b c : Task) : due_le a b → due_le b c → due_le a c.
Proof.
  unfold due_le. destruct (due_time a), (due_time b), (due_time c); try lia; tauto.
Qed.

Lemma displayed_due_sorted (ts : list Task) :
  Forall due_valid ts → StronglySorted due_le (displayed filter ts).
Proof.
  intros Hv. rewrite displayed_eq.
  apply (Array_sort_sorted _ due_valid due_le).
  - intros x y. apply due_le_spec.
  - intros x y _ _. apply due_le_total.
  - intros x y z _ _ _. apply due_le_trans.
  - by apply Array_filter_Forall.
Qed.

(** Tasks without a due date keep their relative order. *)
Lemma displayed_due_stable (ts : list Task) :
  Array_filter (λ t, negb (has_dueDate t)) (displayed filter ts) =
    Array_filter (λ t, negb (has_dueDate t)) (Array_filter (keep filter) ts).
Proof.
  rewrite displayed_eq. apply Array_sort_filter.
  intros a b _ _ Ha Hb. unfold SortCompare.
  rewrite comparator_due, Ha, Hb. done.
Qed.

End DueSort.

(** C6, as the code has it: under the sort key "due", for tasks whose
    due dates denote timestamps, the displayed sequence is an arrangement of the kept tasks
    in which, of any two tasks, the earlier one in the sequence has the
    smaller or equal due timestamp when both have a due date, and no task
    without a due date comes before one that has one; the comparator ranks
    two tasks without a due date as equal; and tasks due [day2], never,
    [day1], with [day1] before [day2], are displayed in the order [day1],
    [day2], none. *)
Theorem due_sort_order `{Host} (filter : FilterState) (ts : list Task) :
  f_sort filter = sort_due →
  Forall due_valid ts →
  displayed filter ts ≡ₚ Array_filter (keep filter) ts
  ∧ (∀ i j a b, (i < j)%nat →
       displayed filter ts !! i = Some a → displayed filter ts !! j = Some b →
       (has_dueDate a = false → has_dueDate b = false)
       ∧ (has_dueDate a = true → has_dueDate b = true →
          ∃ ta tb, due_time a = Some ta ∧ due_time b = Some tb ∧ (ta ≤ tb)%Z))
  ∧ (∀ a b, has_dueDate a = false → has_dueDate b = false →
       comparator filter a b = Some 0%Z)
  ∧ (∀ a b c day1 day2 t1 t2,
       dueDate a = Some day2 → dueDate b = None → dueDate c = Some day1 →
       day1 ≠ [] → day2 ≠ [] →
       Date_parse day1 = Some t1 → Date_parse day2 = Some t2 → (t1 < t2)%Z →
       keep filter a = true → keep filter b = true → keep filter c = true →
       displayed filter [a; b; c] = [c; a; b]).
Proof.
  intros Hsort Hv. split; [|split; [|split]].
  - rewrite displayed_eq. apply Array_sort_perm.
  - intros i j a b Hij Hi Hj.
    pose proof (displayed_due_sorted filter Hsort ts Hv) as Hs.
    pose proof (StronglySorted_lookup _ _ _ _ _ _ Hs Hij Hi Hj) as Hab.
    assert (Hin : ∀ k x, displayed filter ts !! k = Some x → due_valid x).
    { intros k x Hk. apply list_elem_of_lookup_2 in Hk.
      rewrite displayed_eq, Array_sort_perm, Array_filter_filter in Hk.
      apply list_elem_of_filter in Hk as [_ Hk].
      rewrite Forall_forall in Hv. auto. }
    pose proof (Hin _ _ Hi) as Hva. pose proof (Hin _ _ Hj) as Hvb.
    unfold due_le, due_valid in *. split.
    + intros Ha. destruct (has_dueDate b) eqn:Hb; [|done].
      destruct Hvb as [tb Htb]; [done|]. rewrite Htb in Hab.
      unfold due_time in Hab at 1. by rewrite Ha in Hab.
    + intros Ha Hb. destruct Hva as [ta Hta]; [done|].
      destruct Hvb as [tb Htb]; [done|]. rewrite Hta, Htb in Hab. eauto.
  - intros a b Ha Hb. rewrite (comparator_due filter Hsort), Ha, Hb. done.
  - intros a b c day1 day2 t1 t2 Ha Hb Hc Hd1 Hd2 Hp1 Hp2 Hlt Hka Hkb Hkc.
    rewrite displayed_eq. simpl. rewrite Hka, Hkb, Hkc. simpl.
    assert (Hha : has_dueDate a = true).
    { unfold has_dueDate. rewrite Ha. by apply truthy_true_iff. }
    assert (Hhb : has_dueDate b = false).
    { unfold has_dueDate. by rewrite Hb. }
    assert (Hhc : has_dueDate c = true).
    { unfold has_dueDate. rewrite Hc. by apply truthy_true_iff. }
    assert (Hta : due_time a = Some t2).
    { unfold due_time, getTime. by rewrite Hha, Ha. }
    assert (Htc : due_time c = Some t1).
    { unfold due_time, getTime. by rewrite Hhc, Hc. }
    assert (Hbc : SortCompare (comparator filter) b c = 1%Z).
    { unfold SortCompare. by rewrite (comparator_due filter Hsort), Hhb, Hhc. }
    assert (Hac : SortCompare (comparator filter) a c = (t2 - t1)%Z).
    { unfold SortCompare.
      by rewrite (comparator_due filter Hsort), Hha, Hhc, Hta, Htc. }
    assert (Hab : SortCompare (comparator filter) a b = (-1)%Z).
    { unfold SortCompare. by rewrite (comparator_due filter Hsort), Hha, Hhb. }
    rewrite Hbc. simpl. rewrite Hac.
    destruct (t2 - t1 <=? 0)%Z eqn:Hcmp; [apply Z.leb_le in Hcmp; lia|].
    simpl. by rewrite Hab.
Qed.

Lemma due_sort_order_witness :
  let mk i due := {| id := i; title := js "T"; description := [];
                     completed := false; createdAt := js "2024-02-29T12:34:56.789Z";
                     dueDate := due; priority := medium |} in
  let a := mk (js "a") (Some (js "2024-03-02T00:00:00.000Z")) in
  let b := mk (js "b") None in
  let c := mk (js "c") (Some (js "2024-03-01T00:00:00.000Z")) in
  let filter := {| f_query := []; f_status := status_all;
                   f_priority := prio_all; f_sort := sort_due |} in
  @displayed RefHost.host filter [a; b; c] = [c; a; b].
Proof.
  intros mk a b c filter.
  destruct (@due_sort_order RefHost.host filter [a; b; c]) as (_ & _ & _ & Hex).
  - reflexivity.
  - repeat (apply Forall_cons_2 || apply Forall_nil_2);
      intros Hd; vm_compute in Hd |- *; first [discriminate | eauto].
  - eapply (Hex a b c); try reflexivity; vm_compute; discriminate.
Defined.

(** C6 as stated fails: a due date that is not a date gives a NaN
    difference, which the sort takes for a tie; here the task due on the
    second day stays before the task due on the first. *)
Lemma due_sort_invalid_date :
  let mk i due := {| id := i; title := js "T"; description := [];
                     completed := false; createdAt := js "2024-02-29T12:34:56.789Z";
                     dueDate := due; priority := medium |} in
  let a := mk (js "a") (Some (js "2024-03-02T00:00:00.000Z")) in
  let b := mk (js "b") (Some (js "bad")) in
  let c := mk (js "c") (Some (js "2024-03-01T00:00:00.000Z")) in
  let filter := {| f_query := []; f_status := status_all;
                   f_priority := prio_all; f_sort := sort_due |} in
  @displayed RefHost.host filter [a; b; c] = [a; b; c]
  ∧ has_dueDate a = true ∧ has_dueDate c = true
  ∧ @due_time RefHost.host a = Some 1709337600000%Z
  ∧ @due_time RefHost.host c = Some 1709251200000%Z
  ∧ @due_time RefHost.host b = None.
Proof. vm_compute. repeat split. Qed.

(** ** Strings through the serializer and the parser *)

Lemma hex_value_digit (n : N) : n < 16 → hex_value (hex_digit n) = Some n.
Proof.
  intros Hn. unfold hex_value, hex_digit.
  destruct (N.ltb_spec n 10) as [Hlt|Hge].
  - replace ((48 <=? 48 + n) && (48 + n <=? 57)) with true
      by (symmetry; apply andb_true_iff; split; apply N.leb_le; lia).
    f_equal. lia.
  - replace ((48 <=? 87 + n) && (87 + n <=? 57)) with false
      by (symmetry; apply andb_false_iff; right; apply N.leb_gt; lia).
    replace ((65 <=? 87 + n) && (87 + n <=? 70)) with false
      by (symmetry; apply andb_false_iff; right; apply N.leb_gt; lia).
    replace ((97 <=? 87 + n) && (87 + n <=? 102)) with true
      by (symmetry; apply andb_true_iff; split; apply N.leb_le; lia).
    f_equal. lia.
Qed.

Lemma hex4_split (c : N) :
  c < 65536 →
  4096 * (c / 4096 mod 16) + 256 * (c / 256 mod 16) + 16 * (c / 16 mod 16) + c mod 16 = c.
Proof.
  intros Hc.
  pose proof (N.div_mod c 16 ltac:(lia)) as H0.
  pose proof (N.div_mod (c / 16) 16 ltac:(lia)) as H1.
  pose proof (N.div_mod (c / 16 / 16) 16 ltac:(lia)) as H2.
  pose proof (N.Div0.div_div c 16 16) as D1.
  pose proof (N.Div0.div_div c 256 16) as D2.
  change (16 * 16) with 256 in D1. change (256 * 16) with 4096 in D2.
  rewrite D1 in H2, H1. rewrite D2 in H2.
  assert (c / 4096 < 16) by (apply N.Div0.div_lt_upper_bound; lia).
  rewrite (N.mod_small (c / 4096) 16) by done.
  lia.
Qed.

Lemma parse_unicode_escape (c : N) (k : jsstring) :
  c < 65536 →
  parse_chars (unicode_escape c ++ k) = presult_map (cons c) (parse_chars k).
Proof.
  intros Hc. unfold unicode_escape.
  cbn [app parse_chars N.eqb Pos.eqb].
  unfold hex4_value.
  rewrite !hex_value_digit by (apply N.mod_upper_bound; lia).
  by rewrite hex4_split.
Qed.

Lemma parse_plain_unit (c : N) (k : jsstring) :
  c ≠ 34 → c ≠ 92 → 32 ≤ c →
  parse_chars (c :: k) = presult_map (cons c) (parse_chars k).
Proof.
  intros H34 H92 H32. cbn [parse_chars].
  apply N.eqb_neq in H34, H92. rewrite H34, H92.
  by replace (c <? 32) with false by (symmetry; apply N.ltb_ge; lia).
Qed.

Lemma parse_escape_char (c : N) (k : jsstring) :
  parse_chars (escape_char c ++ k) = presult_map (cons c) (parse_chars k).
Proof.
  unfold escape_char.
  repeat match goal with
  | |- context [c =? ?n] => destruct (N.eqb_spec c n) as [->|?]; [reflexivity|]
  end.
  destruct (N.ltb_spec c 32).
  - apply parse_unicode_escape. lia.
  - by apply parse_plain_unit.
Qed.

Lemma surrogate_bounds (c : N) :
  is_high_surrogate c = true ∨ is_low_surrogate c = true →
  c ≠ 34 ∧ c ≠ 92 ∧ 32 ≤ c ∧ c < 65536.
Proof.
  unfold is_high_surrogate, is_low_surrogate.
  rewrite !andb_true_iff, !N.leb_le. lia.
Qed.

(** The parser reads back the characters the serializer wrote. *)
Lemma parse_quote_chars (s k : jsstring) :
  parse_chars (quote_chars s ++ 34 :: k) = Parsed s k.
Proof.
  remember (length s) as n eqn:Hn.
  assert (Hle : (length s ≤ n)%nat) by lia. clear Hn.
  revert s Hle. induction n as [|n IH]; intros s Hle.
  { destruct s; [reflexivity|simpl in Hle; lia]. }
  destruct s as [|c s]; [reflexivity|].
  simpl in Hle.
  cbn [quote_chars].
  destruct (is_high_surrogate c) eqn:Hhi.
  - destruct (surrogate_bounds c) as (? & ? & ? & ?); [by left|].
    destruct s as [|d s].
    + rewrite parse_unicode_escape by done. reflexivity.
    + destruct (is_low_surrogate d) eqn:Hlo.
      * destruct (surrogate_bounds d) as (? & ? & ? & ?); [by right|].
        simpl in Hle.
        cbn [app]. rewrite !parse_plain_unit by done.
        rewrite (IH s) by lia. reflexivity.
      * rewrite <- app_assoc, parse_unicode_escape by done.
        rewrite (IH (d :: s)) by (simpl in *; lia). reflexivity.
  - destruct (is_low_surrogate c) eqn:Hlo.
    + destruct (surrogate_bounds c) as (? & ? & ? & ?); [by right|].
      rewrite <- app_assoc, parse_unicode_escape by done.
      rewrite (IH s) by lia. reflexivity.
    + rewrite <- app_assoc, parse_escape_char.
      rewrite (IH s) by lia. reflexivity.
Qed.

(** ** Values through the serializer and the parser *)

Lemma parse_value_S (f : nat) (s : jsstring) :
  parse_value (S f) s =
    match skip_ws s with
    | [] => Malformed
    | c :: s' =>
        if c =? 34 then presult_map JStr (parse_chars s')
        else if c =? 91 then
          match skip_ws s' with
          | d :: r =>
              if d =? 93 then Parsed (JArr []) r
              else presult_map JArr (parse_elements f s')
          | [] => Malformed
          end
        else if c =? 123 then
          match skip_ws s' with
          | d :: r =>
              if d =? 125 then Parsed (JObj []) r
              else presult_map make_object (parse_members f s')
          | [] => Malformed
          end
        else if startsWith (c :: s') (js "null") then Parsed JNull (drop 4 (c :: s'))
        else if startsWith (c :: s') (js "true") then Parsed (JBool true) (drop 4 (c :: s'))
        else if startsWith (c :: s') (js "false") then Parsed (JBool false) (drop 5 (c :: s'))
        else presult_map (λ me, JNum me.1 me.2) (parse_number (c :: s'))
    end.
Proof. reflexivity. Qed.

Lemma parse_elements_S (f : nat) (s : jsstring) :
  parse_elements (S f) s =
    match parse_value f s with
    | Parsed v r =>
        match skip_ws r with
        | c :: r' =>
            if c =? 44 then presult_map (cons v) (parse_elements f r')
            else if c =? 93 then Parsed [v] r'
            else Malformed
        | [] => Malformed
        end
    | Malformed => Malformed
    | OutOfFuel => OutOfFuel
    end.
Proof. reflexivity. Qed.

Lemma parse_members_S (f : nat) (s : jsstring) :
  parse_members (S f) s =
    match skip_ws s with
    | c :: s1 =>
        if c =? 34 then
          match parse_chars s1 with
          | Parsed k r =>
              match skip_ws r with
              | c2 :: r2 =>
                  if c2 =? 58 then
                    match parse_value f r2 with
                    | Parsed v r3 =>
                        match skip_ws r3 with
                        | c3 :: r4 =>
                            if c3 =? 44 then presult_map (cons (k, v)) (parse_members f r4)
                            else if c3 =? 125 then Parsed [(k, v)] r4
                            else Malformed
                        | [] => Malformed
                        end
                    | Malformed => Malformed
                    | OutOfFuel => OutOfFuel
                    end
                  else Malformed
              | [] => Malformed
              end
          | Malformed => Malformed
          | OutOfFuel => OutOfFuel
          end
        else Malformed
    | [] => Malformed
    end.
Proof. reflexivity. Qed.

Lemma QuoteJSONString_app (s tail : jsstring) :
  QuoteJSONString s ++ tail = 34 :: quote_chars s ++ 34 :: tail.
Proof. unfold QuoteJSONString. simpl. by rewrite <- app_assoc. Qed.

Lemma reads_string (s : jsstring) : reads_as (QuoteJSONString s) (JStr s) 1.
Proof.
  intros [|f] tail Hf; [lia|].
  rewrite QuoteJSONString_app, parse_value_S.
  change (skip_ws (34 :: ?x)) with (34 :: x).
  change (34 =? 34) with true. cbn iota.
  by rewrite parse_quote_chars.
Qed.

Lemma reads_bool (b : bool) :
  reads_as (if b then js "true" else js "false") (JBool b) 1.
Proof. intros [|f] tail Hf; [lia|]. destruct b; reflexivity. Qed.

(** One member of an object, followed by a comma or by the closing
    brace. *)
Lemma parse_members_comma (f : nat) (k vt : jsstring) (v : jsval) (rest : jsstring) :
  reads_as vt v 1 → (1 ≤ f)%nat →
  parse_members (S f) ((QuoteJSONString k ++ 58 :: vt) ++ 44 :: rest) =
    presult_map (cons (k, v)) (parse_members f rest).
Proof.
  intros Hv Hf. rewrite <- app_assoc, QuoteJSONString_app, parse_members_S.
  change (skip_ws (34 :: ?x)) with (34 :: x).
  change (34 =? 34) with true. cbn iota.
  rewrite parse_quote_chars. cbn [app].
  change (skip_ws (58 :: ?x)) with (58 :: x).
  change (58 =? 58) with true. cbn iota.
  rewrite Hv by done. reflexivity.
Qed.

Lemma parse_members_brace (f : nat) (k vt : jsstring) (v : jsval) (rest : jsstring) :
  reads_as vt v 1 → (1 ≤ f)%nat →
  parse_members (S f) ((QuoteJSONString k ++ 58 :: vt) ++ 125 :: rest) =
    Parsed [(k, v)] rest.
Proof.
  intros Hv Hf. rewrite <- app_assoc, QuoteJSONString_app, parse_members_S.
  change (skip_ws (34 :: ?x)) with (34 :: x).
  change (34 =? 34) with true. cbn iota.
  rewrite parse_quote_chars. cbn [app].
  change (skip_ws (58 :: ?x)) with (58 :: x).
  change (58 =? 58) with true. cbn iota.
  rewrite Hv by done. reflexivity.
Qed.

(** The members of an object, written with commas between them and a
    closing brace, are read back in order. *)
Lemma parse_members_join (ms : list (jsstring * jsstring * jsval)) (f : nat)
    (rest : jsstring) :
  ms ≠ [] →
  Forall (λ m, reads_as m.1.2 m.2 1) ms →
  (length ms + 1 ≤ f)%nat →
  parse_members f
    (join_commas ((λ m, QuoteJSONString m.1.1 ++ 58 :: m.1.2) <$> ms) ++ 125 :: rest) =
    Parsed ((λ m, (m.1.1, m.2)) <$> ms) rest.
Proof.
  revert f. induction ms as [|[[k vt] v] ms IH]; intros f Hne Hall Hf; [done|].
  apply Forall_cons in Hall as [Hm Hall]. simpl in Hm, Hf.
  destruct f as [|f]; [lia|].
  destruct ms as [|m' ms].
  - simpl. apply parse_members_brace; [done|lia].
  - change (join_commas ((λ m, QuoteJSONString m.1.1 ++ 58 :: m.1.2) <$> (k, vt, v) :: m' :: ms))
      with ((QuoteJSONString k ++ 58 :: vt) ++ 44 ::
            join_commas ((λ m, QuoteJSONString m.1.1 ++ 58 :: m.1.2) <$> m' :: ms)).
    rewrite <- app_assoc. cbn [app].
    rewrite (parse_members_comma f k vt v) by (done || simpl in Hf; lia).
    rewrite IH; [done|done|done|simpl in *; lia].
Qed.

(** A task, as the serializer writes it, is read back as the object
    with the task's properties. *)
Lemma reads_task (t : Task) : reads_as (JSON_stringify_Task t) (Task_to_js t) 9.
Proof.
  intros fuel tail Hf. destruct fuel as [|f]; [lia|].
  pose (ms := [ (js "id", QuoteJSONString (id t), JStr (id t));
                (js "title", QuoteJSONString (title t), JStr (title t));
                (js "description", QuoteJSONString (description t), JStr (description t));
                (js "completed", if completed t then js "true" else js "false",
                 JBool (completed t));
                (js "createdAt", QuoteJSONString (createdAt t), JStr (createdAt t)) ]
              ++ match dueDate t with
                 | Some d => [ (js "dueDate", QuoteJSONString d, JStr d) ]
                 | None => []
                 end
              ++ [ (js "priority", QuoteJSONString (priority_string (priority t)),
                    JStr (priority_string (priority t))) ]).
  assert (Htext : JSON_stringify_Task t =
    123 :: join_commas ((λ m, QuoteJSONString m.1.1 ++ 58 :: m.1.2) <$> ms) ++ [125]).
  { unfold JSON_stringify_Task, ms. by destruct (dueDate t). }
  assert (Hval : Task_to_js t = make_object ((λ m, (m.1.1, m.2)) <$> ms)).
  { unfold Task_to_js, ms. by destruct (dueDate t). }
  assert (Hreads : Forall (λ m, reads_as m.1.2 m.2 1) ms).
  { unfold ms. destruct (dueDate t);
      repeat (apply Forall_cons_2 || apply Forall_nil_2); simpl;
      apply reads_string || apply reads_bool. }
  assert (Hlen : (length ms ≤ 7)%nat).
  { unfold ms. destruct (dueDate t); simpl; lia. }
  assert (Hne : ms ≠ []).
  { unfold ms. discriminate. }
  rewrite Htext, Hval. clearbody ms. clear Htext Hval.
  cbn [app]. rewrite <- app_assoc. cbn [app].
  rewrite parse_value_S.
  change (skip_ws (123 :: ?x)) with (123 :: x).
  change (123 =? 34) with false. change (123 =? 91) with false.
  change (123 =? 123) with true. cbn iota.
  rewrite parse_members_join by (done || lia).
  destruct ms as [|[[k vt] v] ms]; [done|].
  destruct ms as [|m' ms]; cbn [fmap list_fmap join_commas fst snd];
    rewrite <- ?app_assoc, QuoteJSONString_app;
    change (skip_ws (34 :: ?x)) with (34 :: x); reflexivity.
Qed.

(** The elements of an array of tasks, written with commas between them
    and a closing bracket, are read back in order. *)
Lemma parse_elements_tasks (ts : list Task) (f : nat) (rest : jsstring) :
  ts ≠ [] →
  (length ts + 9 ≤ f)%nat →
  parse_elements f (join_commas (JSON_stringify_Task <$> ts) ++ 93 :: rest) =
    Parsed (Task_to_js <$> ts) rest.
Proof.
  revert f. induction ts as [|t ts IH]; intros f Hne Hf; [done|].
  simpl in Hf. destruct f as [|f]; [lia|].
  rewrite parse_elements_S. destruct ts as [|t' ts].
  - cbn [fmap list_fmap join_commas].
    rewrite (reads_task t) by lia.
    reflexivity.
  - change (join_commas (JSON_stringify_Task <$> t :: t' :: ts))
      with (JSON_stringify_Task t ++ 44 :: join_commas (JSON_stringify_Task <$> t' :: ts)).
    rewrite <- app_assoc. cbn [app].
    rewrite (reads_task t) by lia.
    change (skip_ws (44 :: ?x)) with (44 :: x).
    change (44 =? 44) with true. cbn iota.
    rewrite IH; [done|done|simpl in *; lia].
Qed.

Lemma join_commas_length (k : nat) (parts : list jsstring) :
  Forall (λ p, (k ≤ length p)%nat) parts →
  (k * length parts ≤ length (join_commas parts))%nat.
Proof.
  induction 1 as [|p parts Hp _ IH]; simpl; [lia|].
  destruct parts as [|q parts]; [simpl; lia|].
  rewrite length_app. simpl in *. lia.
Qed.

Lemma JSON_stringify_Task_length (t : Task) :
  (9 ≤ length (JSON_stringify_Task t))%nat.
Proof.
  unfold JSON_stringify_Task. cbn [app join_commas length].
  rewrite !length_app. unfold json_member at 1.
  rewrite !length_app. simpl. lia.
Qed.

(** Parsing what the persist effect wrote gives the array of the tasks'
    objects. *)
Lemma JSON_parse_stringify (ts : list Task) :
  JSON_parse (JSON_stringify ts) = Normal (JArr (Task_to_js <$> ts)).
Proof.
  destruct ts as [|t ts]; [reflexivity|].
  unfold JSON_parse, parse_fuel.
  assert (Hlen : (9 * length (t :: ts) ≤
                   length (join_commas (JSON_stringify_Task <$> t :: ts)))%nat).
  { rewrite <- (length_fmap JSON_stringify_Task (t :: ts)).
    apply join_commas_length, Forall_fmap, Forall_forall.
    intros x _. apply JSON_stringify_Task_length. }
  assert (Hfuel : (length (t :: ts) + 9 ≤
    length (JSON_stringify (t :: ts)) + length (JSON_stringify (t :: ts)))%nat).
  { unfold JSON_stringify. cbn [length]. rewrite length_app.
    simpl in Hlen |- *. lia. }
  remember (length (JSON_stringify (t :: ts)) + length (JSON_stringify (t :: ts)))%nat
    as f eqn:Hf.
  clear Hf. rewrite parse_value_S.
  unfold JSON_stringify.
  change (skip_ws (91 :: ?x)) with (91 :: x).
  change (91 =? 34) with false. change (91 =? 91) with true. cbn iota.
  rewrite (parse_elements_tasks (t :: ts) f []) by done.
  assert (Hfirst : ∃ x, join_commas (JSON_stringify_Task <$> t :: ts) ++ [93] = 123 :: x).
  { destruct ts; eexists; reflexivity. }
  destruct Hfirst as [x ->]. reflexivity.
Qed.

Lemma Task_of_js_to_js (t : Task) : Task_of_js (Task_to_js t) = Some t.
Proof. destruct t as [i ti d c ca [due|] []]; reflexivity. Qed.

(** ** Loading *)

(** C9: the text the persist effect writes for a task collection is read
    back by the load effect as the array of the same tasks: as many, in
    the same order, each with the same fields ([dueDate] absent where it
    was absent); read as task records, the loaded array is the original
    collection. *)
Theorem persist_load_roundtrip (tasks : list Task) :
  load (Some (persist_effect tasks)) = Task_to_js <$> tasks
  ∧ Tasks_of_js (load (Some (persist_effect tasks))) = Some tasks
  ∧ length (load (Some (persist_effect tasks))) = length tasks.
Proof.
  assert (Hload : load (Some (persist_effect tasks)) = Task_to_js <$> tasks).
  { unfold load, load_effect, persist_effect.
    rewrite JSON_parse_stringify. reflexivity. }
  rewrite Hload. split; [done|]. split.
  - apply mapM_fmap_Some. intros t. apply Task_of_js_to_js.
  - apply length_fmap.
Qed.

(** C4, as the code has it: for every stored text that is not JSON, or
    is JSON for a value that is not an array, the load effect returns
    normally and leaves the collection empty. *)
Theorem load_not_an_array (text : jsstring) :
  (JSON_parse text = Throw SyntaxError
   ∨ ∃ v, JSON_parse text = Normal v ∧ is_array v = false) →
  load (Some text) = []
  ∧ ∃ errors, load_effect (Some text) [] = ([], errors).
Proof.
  intros Hbad. unfold load, load_effect.
  destruct (truthy text); simpl; [|eauto].
  destruct Hbad as [->|(v & -> & Hv)]; [eauto|].
  destruct v; try discriminate; eauto.
Qed.

Lemma load_not_an_array_witness :
  load (Some (js "{not json")) = [] ∧ load (Some (js "{}")) = [].
Proof.
  split.
  - apply (load_not_an_array (js "{not json")). left. vm_compute. reflexivity.
  - apply (load_not_an_array (js "{}")). right.
    eexists. split; vm_compute; reflexivity.
Defined.

(** C4 as stated fails: the elements of a stored array are not looked
    at, so an array of values that are not task-shaped is adopted. *)
Lemma load_adopts_untyped_array :
  load (Some (js "[1, {}]")) = [JNum 1 0; JObj []]
  ∧ Tasks_of_js (load (Some (js "[1, {}]"))) = None
  ∧ load (Some (js "[1, {}]")) ≠ [].
Proof. vm_compute. repeat split. discriminate. Qed.

(** An array is adopted as it is. *)
Lemma load_adopts_array (text : jsstring) (parsed : list jsval) :
  text ≠ [] → JSON_parse text = Normal (JArr parsed) → load (Some text) = parsed.
Proof.
  intros Hne Hp. unfold load, load_effect.
  apply truthy_true_iff in Hne. by rewrite Hne, Hp.
Qed.

(** ** The parser never runs out of fuel *)

Lemma skip_ws_length (s : jsstring) : (length (skip_ws s) ≤ length s)%nat.
Proof.
  induction s as [|c s IH]; simpl; [lia|].
  destruct (is_json_ws c); simpl; lia.
Qed.

Lemma skip_ws_cons_length (s : jsstring) (c : N) (s' : jsstring) :
  skip_ws s = c :: s' → (length s' < length s)%nat.
Proof.
  intros Hs. pose proof (skip_ws_length s) as Hl. rewrite Hs in Hl. simpl in Hl. lia.
Qed.

Lemma presult_map_Parsed {A B} (g : A → B) (r : presult A) (b : B) (rest : jsstring) :
  presult_map g r = Parsed b rest → ∃ a, r = Parsed a rest ∧ b = g a.
Proof. destruct r; simpl; intros Hr; simplify_eq. eauto. Qed.

Lemma presult_map_OutOfFuel {A B} (g : A → B) (r : presult A) :
  presult_map g r = OutOfFuel → r = OutOfFuel.
Proof. by destruct r. Qed.

Lemma parse_chars_progress (s k r : jsstring) :
  parse_chars s = Parsed k r → (length r < length s)%nat.
Proof.
  remember (length s) as n eqn:Hn.
  assert (Hle : (length s ≤ n)%nat) by lia. clear Hn.
  revert s k r Hle. induction n as [|n IH]; intros s k r Hle Hp.
  { destruct s; [discriminate|simpl in Hle; lia]. }
  destruct s as [|c s]; [discriminate|]. simpl in Hle, Hp.
  repeat case_match; simplify_eq; simpl in *; try lia;
    apply presult_map_Parsed in Hp as (k' & Hp & _);
    apply IH in Hp; simpl in *; lia.
Qed.

Lemma parse_chars_fuel (s : jsstring) : parse_chars s ≠ OutOfFuel.
Proof.
  remember (length s) as n eqn:Hn.
  assert (Hle : (length s ≤ n)%nat) by lia. clear Hn.
  revert s Hle. induction n as [|n IH]; intros s Hle Hp.
  { destruct s; [discriminate|simpl in Hle; lia]. }
  destruct s as [|c s]; [discriminate|]. simpl in Hle, Hp.
  repeat case_match; simplify_eq;
    apply presult_map_OutOfFuel in Hp; revert Hp; apply IH; simpl in *; lia.
Qed.

Lemma span_digits_length (s : jsstring) (ds r : jsstring) :
  span_digits s = (ds, r) → (length ds + length r = length s)%nat.
Proof.
  revert ds r. induction s as [|c s IH]; intros ds r Hs; simpl in Hs.
  { by simplify_eq. }
  destruct (is_digit c).
  - destruct (span_digits s) as [ds' r'] eqn:Hs'. simplify_eq.
    specialize (IH _ _ eq_refl). simpl. lia.
  - simplify_eq. simpl. lia.
Qed.

Lemma span_digits_cons (c : N) (s ds r : jsstring) :
  is_digit c = true → span_digits (c :: s) = (ds, r) → (length r ≤ length s)%nat.
Proof.
  intros Hc. simpl. rewrite Hc.
  destruct (span_digits s) as [ds' r'] eqn:Hs. intros [= <- <-].
  apply span_digits_length in Hs. lia.
Qed.

Lemma parse_number_progress (s : jsstring) (x : Z * Z) (r : jsstring) :
  parse_number s = Parsed x r → (length r < length s)%nat.
Proof.
  unfold parse_number. intros Hp.
  repeat case_match; simplify_eq;
    repeat match goal with
    | Hc : is_digit ?c = true, H : span_digits (?c :: _) = _ |- _ =>
        apply (span_digits_cons _ _ _ _ Hc) in H
    | H : span_digits _ = _ |- _ => apply span_digits_length in H
    end; simpl in *; lia.
Qed.

Lemma parse_number_fuel (s : jsstring) : parse_number s ≠ OutOfFuel.
Proof. unfold parse_number. intros Hp. repeat case_match; simplify_eq. Qed.

Lemma startsWith_length (s t : jsstring) :
  startsWith s t = true → (length t ≤ length s)%nat.
Proof.
  revert s. induction t as [|d t IH]; intros s Hs; simpl in *; [lia|].
  destruct s as [|c s]; [discriminate|].
  apply andb_true_iff in Hs as [_ Hs]. apply IH in Hs. simpl. lia.
Qed.

Ltac length_facts :=
  repeat match goal with
  | H : skip_ws _ = _ :: _ |- _ => apply skip_ws_cons_length in H
  | H : parse_chars _ = Parsed _ _ |- _ => apply parse_chars_progress in H
  | H : parse_number _ = Parsed _ _ |- _ => apply parse_number_progress in H
  | H : startsWith _ _ = true |- _ => apply startsWith_length in H
  | H : presult_map _ _ = Parsed _ _ |- _ =>
      apply presult_map_Parsed in H as (? & H & _)
  end.

(** Every successful parse consumes at least one code unit. *)
Lemma parse_progress (f : nat) :
  (∀ s v r, parse_value f s = Parsed v r → (length r < length s)%nat)
  ∧ (∀ s l r, parse_elements f s = Parsed l r → (length r < length s)%nat)
  ∧ (∀ s l r, parse_members f s = Parsed l r → (length r < length s)%nat).
Proof.
  induction f as [|f (IHv & IHe & IHm)]; [repeat split; intros; discriminate|].
  split; [|split].
  - intros s v r. rewrite parse_value_S. intros Hp.
    repeat case_match; simplify_eq; length_facts;
      repeat match goal with
      | H : parse_elements f _ = Parsed _ _ |- _ => apply IHe in H
      | H : parse_members f _ = Parsed _ _ |- _ => apply IHm in H
      end;
      rewrite ?length_drop; simpl in *; lia.
  - intros s l r. rewrite parse_elements_S. intros Hp.
    repeat case_match; simplify_eq; length_facts;
      repeat match goal with
      | H : parse_value f _ = Parsed _ _ |- _ => apply IHv in H
      | H : parse_elements f _ = Parsed _ _ |- _ => apply IHe in H
      end; simpl in *; lia.
  - intros s l r. rewrite parse_members_S. intros Hp.
    repeat case_match; simplify_eq; length_facts;
      repeat match goal with
      | H : parse_value f _ = Parsed _ _ |- _ => apply IHv in H
      | H : parse_members f _ = Parsed _ _ |- _ => apply IHm in H
      end; simpl in *; lia.
Qed.

(** Two units of fuel per code unit suffice. *)
Lemma parse_fuel_enough (f : nat) :
  (∀ s, (2 * length s + 1 ≤ f)%nat → parse_value f s ≠ OutOfFuel)
  ∧ (∀ s, (2 * length s + 2 ≤ f)%nat → parse_elements f s ≠ OutOfFuel)
  ∧ (∀ s, (2 * length s + 2 ≤ f)%nat → parse_members f s ≠ OutOfFuel).
Proof.
  induction f as [|f (IHv & IHe & IHm)]; [repeat split; intros; lia|].
  destruct (parse_progress f) as (Pv & Pe & Pm).
  split; [|split].
  - intros s Hf. rewrite parse_value_S. intros Hp.
    repeat case_match; simplify_eq;
      try (apply presult_map_OutOfFuel in Hp);
      try (by apply parse_chars_fuel in Hp);
      try (by apply parse_number_fuel in Hp);
      length_facts;
      first [ revert Hp; apply IHe | revert Hp; apply IHm ]; simpl in *; lia.
  - intros s Hf. rewrite parse_elements_S. intros Hp.
    repeat case_match; simplify_eq;
      try (apply presult_map_OutOfFuel in Hp);
      length_facts;
      repeat match goal with
      | H : parse_value f _ = Parsed _ _ |- _ => apply Pv in H
      end;
      first [ revert Hp; apply IHe | eapply IHv; [|eassumption] ]; simpl in *; lia.
  - intros s Hf. rewrite parse_members_S. intros Hp.
    repeat case_match; simplify_eq;
      try (apply presult_map_OutOfFuel in Hp);
      try (by apply parse_chars_fuel in Hp);
      length_facts;
      repeat match goal with
      | H : parse_value f _ = Parsed _ _ |- _ => apply Pv in H
      | H : parse_chars _ = OutOfFuel |- _ => by apply parse_chars_fuel in H
      end;
      first [ revert Hp; apply IHm | eapply IHv; [|eassumption] ]; simpl in *; lia.
Qed.


(** [JSON.parse] throws only on a text that is not one JSON value: the
    fuel it is given never runs out. *)
Lemma JSON_parse_Throw (text : jsstring) (e : exn) :
  JSON_parse text = Throw e →
  e = SyntaxError
  ∧ (parse_value (parse_fuel text) text = Malformed
     ∨ ∃ v rest, parse_value (parse_fuel text) text = Parsed v rest
                 ∧ skip_ws rest ≠ []).
Proof.
  unfold JSON_parse.
  destruct (parse_value (parse_fuel text) text) as [v rest| |] eqn:Hp.
  - destruct (skip_ws rest) as [|c rest'] eqn:Hr; [discriminate|].
    intros [= <-]. split; [done|]. right. exists v, rest.
    split; [done|]. by rewrite Hr.
  - intros [= <-]. eauto.
  - exfalso. revert Hp. apply parse_fuel_enough. unfold parse_fuel. lia.
Qed.

(** * Further properties *)

(** ** The operations of the store, one task at a time *)

Lemma Array_filter_app {A} (p : A → bool) (l1 l2 : list A) :
  Array_filter p (l1 ++ l2) = Array_filter p l1 ++ Array_filter p l2.
Proof. by rewrite !Array_filter_filter, filter_app. Qed.

Lemma Array_filter_elem_of {A} (p : A → bool) (l : list A) (x : A) :
  x ∈ Array_filter p l ↔ x ∈ l ∧ p x = true.
Proof. rewrite Array_filter_filter, list_elem_of_filter. tauto. Qed.

Lemma Array_filter_id {A} (p : A → bool) (l : list A) :
  (∀ x, x ∈ l → p x = true) → Array_filter p l = l.
Proof.
  induction l as [|x l IH]; intros Hp; simpl; [done|].
  rewrite (Hp x) by constructor. f_equal. apply IH. intros y Hy. apply Hp. by right.
Qed.

Lemma Array_filter_ids_NoDup (p : Task → bool) (l : list Task) :
  NoDup (id <$> l) → NoDup (id <$> Array_filter p l).
Proof.
  induction l as [|t l IH]; simpl; [done|].
  rewrite NoDup_cons. intros [Ht Hl]. destruct (p t); [|by apply IH].
  rewrite fmap_cons, NoDup_cons. split; [|by apply IH].
  rewrite list_elem_of_fmap in Ht |- *. intros (u & Hu & Hin).
  apply Array_filter_elem_of in Hin as [Hin _]. eauto.
Qed.

Lemma updateTask_fmap (i : jsstring) (patch : Patch) (l : list Task) :
  updateTask i patch l =
    (λ task, if bool_decide (id task = i) then spread_patch task patch else task) <$> l.
Proof. apply Array_map_fmap. Qed.

Lemma updateTask_app (i : jsstring) (patch : Patch) (l1 l2 : list Task) :
  updateTask i patch (l1 ++ l2) = updateTask i patch l1 ++ updateTask i patch l2.
Proof. by rewrite !updateTask_fmap, fmap_app. Qed.

Lemma updateTask_absent (i : jsstring) (patch : Patch) (l : list Task) :
  i ∉ id <$> l → updateTask i patch l = l.
Proof.
  intros Hi. rewrite updateTask_fmap.
  rewrite <- (list_fmap_id l) at 2. apply list_fmap_ext. intros k t Hk.
  case_bool_decide as Ht; [|done]. exfalso. apply Hi.
  apply list_elem_of_fmap. exists t. split; [done|].
  by eapply list_elem_of_lookup_2.
Qed.

Lemma updateTask_ids (i : jsstring) (patch : Patch) (l : list Task) :
  p_id patch = None → id <$> updateTask i patch l = id <$> l.
Proof.
  intros Hid. rewrite updateTask_fmap, <- list_fmap_compose.
  apply list_fmap_ext. intros k t _. simpl.
  case_bool_decide; [|done]. unfold spread_patch. simpl. by rewrite Hid.
Qed.

Lemma deleteTask_app (i : jsstring) (l1 l2 : list Task) :
  deleteTask i (l1 ++ l2) = deleteTask i l1 ++ deleteTask i l2.
Proof. apply Array_filter_app. Qed.

Lemma deleteTask_absent (i : jsstring) (l : list Task) :
  i ∉ id <$> l → deleteTask i l = l.
Proof.
  intros Hi. apply Array_filter_id. intros t Ht.
  case_bool_decide as Heq; [|done]. exfalso. apply Hi.
  apply list_elem_of_fmap. eauto.
Qed.

Lemma ids_split (l1 l2 : list Task) (t : Task) :
  NoDup (id <$> (l1 ++ t :: l2)) → (id t ∉ id <$> l1) ∧ (id t ∉ id <$> l2).
Proof.
  rewrite fmap_app, fmap_cons, NoDup_app, NoDup_cons.
  intros (_ & Hdis & Ht & _). split; [|done].
  intros Hin. apply (Hdis _ Hin). left.
Qed.

(** Distinctness of a closed list of ids. *)
Ltac closed_NoDup :=
  vm_compute;
  repeat (apply NoDup_cons_2;
          [rewrite ?not_elem_of_cons; repeat split;
           first [discriminate | apply not_elem_of_nil] |]);
  apply NoDup_nil_2.

Lemma not_in_ids (i : jsstring) (l : list Task) :
  (∀ task, task ∈ l → id task ≠ i) → i ∉ id <$> l.
Proof.
  intros Hl (t & -> & Ht)%list_elem_of_fmap. by apply (Hl t).
Qed.

(** X1: an update for an id that no task bears changes nothing, whatever
    the patch. *)
Theorem updateTask_unknown_id (i : jsstring) (patch : Patch) (prev : list Task) :
  (∀ task, task ∈ prev → id task ≠ i) →
  updateTask i patch prev = prev.
Proof. intros Hi. by apply updateTask_absent, not_in_ids. Qed.

Lemma updateTask_unknown_id_witness :
  let t := {| id := js "a"; title := js "T"; description := [];
              completed := false; createdAt := js "2024-02-29T12:34:56.789Z";
              dueDate := None; priority := medium |} in
  updateTask (js "b") (completed_patch true) [t] = [t].
Proof.
  intros t. apply (updateTask_unknown_id (js "b") (completed_patch true) [t]).
  intros task Ht. apply list_elem_of_singleton in Ht as ->.
  vm_compute. discriminate.
Defined.

Lemma updateTask_split (l1 l2 : list Task) (t : Task) (patch : Patch) :
  NoDup (id <$> (l1 ++ t :: l2)) →
  updateTask (id t) patch (l1 ++ t :: l2) = l1 ++ spread_patch t patch :: l2.
Proof.
  intros [H1 H2]%ids_split.
  rewrite updateTask_app. change (t :: l2) with ([t] ++ l2).
  rewrite updateTask_app.
  rewrite (updateTask_absent _ _ l1), (updateTask_absent _ _ l2) by done.
  rewrite updateTask_fmap. simpl. by rewrite bool_decide_eq_true_2.
Qed.

(** X2: when the ids of the collection are distinct, an update rewrites
    the one task that bears the id, in place, and no other. *)
Theorem updateTask_rewrites_one (l1 l2 : list Task) (t : Task) (patch : Patch) :
  NoDup (id <$> (l1 ++ t :: l2)) →
  updateTask (id t) patch (l1 ++ t :: l2) = l1 ++ spread_patch t patch :: l2.
Proof. apply updateTask_split. Qed.

Lemma updateTask_rewrites_one_witness :
  let mk i := {| id := i; title := js "T"; description := [];
                 completed := false; createdAt := js "2024-02-29T12:34:56.789Z";
                 dueDate := None; priority := medium |} in
  updateTask (js "b") (priority_patch high) [mk (js "a"); mk (js "b"); mk (js "c")] =
    [mk (js "a"); spread_patch (mk (js "b")) (priority_patch high); mk (js "c")].
Proof.
  intros mk.
  apply (updateTask_rewrites_one [mk (js "a")] [mk (js "c")] (mk (js "b"))).
  closed_NoDup.
Defined.

(** X3: ticking or clearing the checkbox of a row, in a collection with
    distinct ids, rewrites the [completed] flag of that task alone, keeps
    the number of tasks, and moves the completed count by the change of
    that one flag. *)
Theorem checkbox_onChange_counts (l1 l2 : list Task) (t : Task) (checked : bool) :
  NoDup (id <$> (l1 ++ t :: l2)) →
  let t' := {| id := id t; title := title t; description := description t;
               completed := checked; createdAt := createdAt t;
               dueDate := dueDate t; priority := priority t |} in
  checkbox_onChange t checked (l1 ++ t :: l2) = l1 ++ t' :: l2
  ∧ length (checkbox_onChange t checked (l1 ++ t :: l2)) = length (l1 ++ t :: l2)
  ∧ (completedCount (checkbox_onChange t checked (l1 ++ t :: l2))
       + (if completed t then 1 else 0)
     = completedCount (l1 ++ t :: l2) + (if checked then 1 else 0))%nat.
Proof.
  intros Hnd t'.
  assert (Heq : checkbox_onChange t checked (l1 ++ t :: l2) = l1 ++ t' :: l2).
  { unfold checkbox_onChange. by rewrite updateTask_split. }
  rewrite Heq. split; [done|]. split.
  - by rewrite !length_app.
  - unfold completedCount.
    change (t' :: l2) with ([t'] ++ l2). change (t :: l2) with ([t] ++ l2).
    rewrite !Array_filter_app, !length_app. simpl.
    destruct (completed t), checked; simpl; lia.
Qed.

Lemma checkbox_onChange_counts_witness :
  let mk i c := {| id := i; title := js "T"; description := [];
                   completed := c; createdAt := js "2024-02-29T12:34:56.789Z";
                   dueDate := None; priority := medium |} in
  checkbox_onChange (mk (js "b") false) true
    [mk (js "a") true; mk (js "b") false; mk (js "c") false] =
    [mk (js "a") true; mk (js "b") true; mk (js "c") false]
  ∧ completedCount (checkbox_onChange (mk (js "b") false) true
      [mk (js "a") true; mk (js "b") false; mk (js "c") false]) = 2%nat.
Proof.
  intros mk.
  destruct (checkbox_onChange_counts [mk (js "a") true] [mk (js "c") false]
              (mk (js "b") false) true) as (Heq & _ & _).
  - closed_NoDup.
  - split; [exact Heq|].
    etrans; [exact (f_equal completedCount Heq)|reflexivity].
Defined.

(** X4: in a collection with distinct ids, one click on "Cycle priority"
    gives the task of the row a different priority and touches nothing
    else; three clicks in a row bring the collection back to what it
    was. *)
Theorem cycle_onClick_thrice (l1 l2 : list Task) (t : Task) :
  NoDup (id <$> (l1 ++ t :: l2)) →
  ∃ t1 t2,
    cycle_onClick t (l1 ++ t :: l2) = l1 ++ t1 :: l2
    ∧ priority t1 = cyclePriority (priority t)
    ∧ priority t1 ≠ priority t
    ∧ cycle_onClick t1 (l1 ++ t1 :: l2) = l1 ++ t2 :: l2
    ∧ cycle_onClick t2 (l1 ++ t2 :: l2) = l1 ++ t :: l2.
Proof.
  intros Hnd.
  set (next := λ u, spread_patch u (priority_patch (cyclePriority (priority u)))).
  assert (Hstep : ∀ u, id u = id t →
    cycle_onClick u (l1 ++ u :: l2) = l1 ++ next u :: l2).
  { intros u Hu. unfold cycle_onClick. apply updateTask_split.
    rewrite fmap_app, fmap_cons, Hu. by rewrite fmap_app, fmap_cons in Hnd. }
  exists (next t), (next (next t)).
  split; [by apply Hstep|]. split; [done|].
  split; [simpl; by destruct (priority t)|].
  split; [by apply Hstep|].
  rewrite Hstep by done. do 2 f_equal.
  destruct t as [i ti d c ca due []]; reflexivity.
Qed.

Lemma cycle_onClick_thrice_witness :
  let mk i p := {| id := i; title := js "T"; description := [];
                   completed := false; createdAt := js "2024-02-29T12:34:56.789Z";
                   dueDate := None; priority := p |} in
  ∃ t1, cycle_onClick (mk (js "b") low) [mk (js "a") low; mk (js "b") low] =
          [mk (js "a") low; t1]
        ∧ priority t1 = high.
Proof.
  intros mk.
  destruct (cycle_onClick_thrice [mk (js "a") low] [] (mk (js "b") low))
    as (t1 & t2 & Heq & Hp & _); [closed_NoDup|].
  exists t1. split; [exact Heq|exact Hp].
Defined.

(** X5: [deleteTask] leaves exactly the tasks that do not bear the id,
    unchanged and in their order; no task with that id remains. *)
Theorem deleteTask_spec (i : jsstring) (prev : list Task) :
  deleteTask i prev = filter (λ task, id task ≠ i) prev
  ∧ deleteTask i prev `sublist_of` prev
  ∧ (∀ task, task ∈ deleteTask i prev ↔ task ∈ prev ∧ id task ≠ i)
  ∧ i ∉ id <$> deleteTask i prev.
Proof.
  assert (Heq : deleteTask i prev = filter (λ task, id task ≠ i) prev).
  { unfold deleteTask. rewrite Array_filter_filter.
    apply list_filter_iff. intros t. case_bool_decide; simpl; split; congruence. }
  split; [exact Heq|]. rewrite Heq. split; [apply sublist_filter|]. split.
  - intros t. rewrite list_elem_of_filter. tauto.
  - intros (t & -> & Ht)%list_elem_of_fmap.
    apply list_elem_of_filter in Ht as [Ht _]. done.
Qed.

(** X6: deleting an id that no task bears changes nothing. *)
Theorem deleteTask_unknown_id (i : jsstring) (prev : list Task) :
  (∀ task, task ∈ prev → id task ≠ i) →
  deleteTask i prev = prev.
Proof. intros Hi. by apply deleteTask_absent, not_in_ids. Qed.

Lemma deleteTask_unknown_id_witness :
  let t := {| id := js "a"; title := js "T"; description := [];
              completed := false; createdAt := js "2024-02-29T12:34:56.789Z";
              dueDate := None; priority := medium |} in
  deleteTask (js "b") [t] = [t].
Proof.
  intros t. apply (deleteTask_unknown_id (js "b") [t]).
  intros task Ht. apply list_elem_of_singleton in Ht as ->.
  vm_compute. discriminate.
Defined.

Lemma deleteTask_split (l1 l2 : list Task) (t : Task) :
  NoDup (id <$> (l1 ++ t :: l2)) →
  deleteTask (id t) (l1 ++ t :: l2) = l1 ++ l2.
Proof.
  intros [H1 H2]%ids_split.
  rewrite deleteTask_app. change (t :: l2) with ([t] ++ l2).
  rewrite deleteTask_app.
  rewrite (deleteTask_absent _ l1), (deleteTask_absent _ l2) by done.
  unfold deleteTask. simpl. by rewrite bool_decide_eq_true_2.
Qed.

(** X7: in a collection with distinct ids, the "Delete" button of a row
    removes that one task: the tasks before and after it remain, in
    order, and the collection is one task shorter. *)
Theorem delete_onClick_removes_one (l1 l2 : list Task) (t : Task) :
  NoDup (id <$> (l1 ++ t :: l2)) →
  delete_onClick t (l1 ++ t :: l2) = l1 ++ l2
  ∧ S (length (delete_onClick t (l1 ++ t :: l2))) = length (l1 ++ t :: l2).
Proof.
  intros Hnd. unfold delete_onClick. rewrite deleteTask_split by done.
  split; [done|]. rewrite !length_app. simpl. lia.
Qed.

Lemma delete_onClick_removes_one_witness :
  let mk i := {| id := i; title := js "T"; description := [];
                 completed := false; createdAt := js "2024-02-29T12:34:56.789Z";
                 dueDate := None; priority := medium |} in
  delete_onClick (mk (js "b")) [mk (js "a"); mk (js "b"); mk (js "c")] =
    [mk (js "a"); mk (js "c")].
Proof.
  intros mk.
  apply (delete_onClick_removes_one [mk (js "a")] [mk (js "c")] (mk (js "b"))).
  closed_NoDup.
Defined.

(** ** Adding, then the other operations *)

Section Adding.
Context `{Host}.

(** What a call of [handleSubmit] leaves: the collection as it was, or
    one new task in front of it. *)
Lemma handleSubmit_tasks_after (uuid : jsstring) (now : Z) (draft : Draft)
    (prev : list Task) :
  tasks_after (handleSubmit uuid now draft prev) prev = prev
  ∨ ∃ t, handleSubmit uuid now draft prev = Normal (t :: prev, emptyDraft)
         ∧ trim (d_title draft) ≠ []
         ∧ id t = uuid ∧ completed t = false
         ∧ title t = trim (d_title draft)
         ∧ description t = trim (d_description draft).
Proof.
  unfold handleSubmit.
  destruct (truthy (trim (d_title draft))) eqn:Ht; simpl; [|by left].
  apply truthy_true_iff in Ht.
  destruct (truthy (d_dueDate draft)); simpl.
  - destruct (Date_string_toISOString (d_dueDate draft)); simpl; [|by left].
    right. eexists. repeat split; done.
  - right. eexists. repeat split; done.
Qed.

End Adding.

(** X8: adding a task under an id that no task bears and then deleting
    that id gives back the collection as it was, whether the submission
    added a task, was refused for a blank title, or threw. *)
Theorem add_then_delete `{Host} (uuid : jsstring) (now : Z) (draft : Draft)
    (prev : list Task) :
  (∀ task, task ∈ prev → id task ≠ uuid) →
  deleteTask uuid (tasks_after (handleSubmit uuid now draft prev) prev) = prev.
Proof.
  intros Hfresh%not_in_ids.
  destruct (handleSubmit_tasks_after uuid now draft prev)
    as [->|(t & -> & _ & Hid & _)].
  - by apply deleteTask_absent.
  - simpl. unfold deleteTask. simpl. rewrite bool_decide_eq_true_2 by done.
    simpl. by apply deleteTask_absent.
Qed.

Lemma add_then_delete_witness :
  let t := {| id := js "a"; title := js "T"; description := [];
              completed := false; createdAt := js "2024-02-29T12:34:56.789Z";
              dueDate := None; priority := medium |} in
  let draft := {| d_title := js "New"; d_description := [];
                  d_dueDate := []; d_priority := low |} in
  deleteTask (js "b")
    (tasks_after (@handleSubmit RefHost.host (js "b") 0 draft [t]) [t]) = [t].
Proof.
  intros t draft.
  apply (@add_then_delete RefHost.host (js "b") 0 draft [t]).
  intros task Ht. apply list_elem_of_singleton in Ht as ->.
  vm_compute. discriminate.
Defined.

(** X9: distinct ids stay distinct: under an add whose generated id is
    borne by no task, under an update whose patch carries no id, under a
    delete and under clearing the completed tasks. *)
Theorem ids_stay_distinct `{Host} (prev : list Task) :
  NoDup (id <$> prev) →
  (∀ uuid now draft, uuid ∉ id <$> prev →
     NoDup (id <$> tasks_after (handleSubmit uuid now draft prev) prev))
  ∧ (∀ i patch, p_id patch = None → NoDup (id <$> updateTask i patch prev))
  ∧ (∀ i, NoDup (id <$> deleteTask i prev))
  ∧ NoDup (id <$> clearCompleted prev).
Proof.
  intros Hnd. split; [|split; [|split]].
  - intros uuid now draft Hfresh.
    destruct (handleSubmit_tasks_after uuid now draft prev)
      as [->|(t & -> & _ & Hid & _)]; [done|].
    simpl. rewrite NoDup_cons, Hid. done.
  - intros i patch Hid. by rewrite updateTask_ids.
  - intros i. by apply Array_filter_ids_NoDup.
  - by apply Array_filter_ids_NoDup.
Qed.

Lemma ids_stay_distinct_witness :
  let mk i c := {| id := i; title := js "T"; description := [];
                   completed := c; createdAt := js "2024-02-29T12:34:56.789Z";
                   dueDate := None; priority := medium |} in
  NoDup (id <$> clearCompleted [mk (js "a") true; mk (js "b") false])
  ∧ NoDup (id <$> deleteTask (js "a") [mk (js "a") true; mk (js "b") false]).
Proof.
  intros mk.
  destruct (@ids_stay_distinct RefHost.host [mk (js "a") true; mk (js "b") false])
    as (_ & _ & Hdel & Hclear); [closed_NoDup|].
  split; [exact Hclear|exact (Hdel (js "a"))].
Defined.

(** X10: the outcomes of [handleSubmit] in one statement: it throws
    exactly when the title is not blank and the due date is a non-empty
    string the host cannot read as a date, and what it throws is a
    RangeError. *)
Theorem handleSubmit_throws_iff `{Host} (uuid : jsstring) (now : Z)
    (draft : Draft) (prev : list Task) (e : exn) :
  handleSubmit uuid now draft prev = Throw e ↔
    e = RangeError
    ∧ trim (d_title draft) ≠ []
    ∧ d_dueDate draft ≠ []
    ∧ Date_parse (d_dueDate draft) = None.
Proof.
  unfold handleSubmit, Date_string_toISOString.
  rewrite <- !truthy_true_iff.
  destruct (truthy (trim (d_title draft))); simpl.
  - destruct (truthy (d_dueDate draft)); simpl.
    + destruct (Date_parse (d_dueDate draft)); simpl; split.
      * discriminate.
      * intros (_ & _ & _ & ?). discriminate.
      * intros [= <-]. done.
      * intros (-> & _). done.
    + split; [discriminate|]. intros (_ & _ & ? & _). discriminate.
  - split; [discriminate|]. intros (_ & ? & _). discriminate.
Qed.

(** X11: a call of [handleSubmit] never removes, rewrites or reorders a
    task: what it leaves is the old collection with at most one task in
    front, and the completed count is what it was. *)
Theorem handleSubmit_only_prepends `{Host} (uuid : jsstring) (now : Z)
    (draft : Draft) (prev : list Task) :
  ∃ new,
    tasks_after (handleSubmit uuid now draft prev) prev = new ++ prev
    ∧ (length new ≤ 1)%nat
    ∧ completedCount (tasks_after (handleSubmit uuid now draft prev) prev)
      = completedCount prev.
Proof.
  destruct (handleSubmit_tasks_after uuid now draft prev)
    as [->|(t & -> & _ & _ & Hc & _)].
  - exists []. repeat split; simpl; lia.
  - exists [t]. repeat split; simpl; [lia|].
    unfold completedCount. simpl. by rewrite Hc.
Qed.

(** X12: after a submission that added a task the draft is the empty
    one, so submitting again at once adds nothing. *)
Theorem handleSubmit_twice `{Host} (uuid1 uuid2 : jsstring) (now1 now2 : Z)
    (draft draft' : Draft) (prev tasks : list Task) :
  trim (d_title draft) ≠ [] →
  handleSubmit uuid1 now1 draft prev = Normal (tasks, draft') →
  draft' = emptyDraft
  ∧ handleSubmit uuid2 now2 draft' tasks = Normal (tasks, draft').
Proof.
  intros Ht Hrun.
  destruct (handleSubmit_tasks_after uuid1 now1 draft prev)
    as [Hsame|(t & Heq & _)].
  - exfalso. revert Hrun Hsame. unfold handleSubmit.
    apply truthy_true_iff in Ht. rewrite Ht. simpl.
    destruct (truthy (d_dueDate draft)); simpl.
    + destruct (Date_string_toISOString (d_dueDate draft)); simpl;
        [|discriminate].
      intros [= <- <-]. simpl. intros Hl.
      apply (f_equal length) in Hl. simpl in Hl. lia.
    + intros [= <- <-]. simpl. intros Hl.
      apply (f_equal length) in Hl. simpl in Hl. lia.
  - rewrite Heq in Hrun. injection Hrun as <- <-. done.
Qed.

Lemma handleSubmit_twice_witness :
  let draft := {| d_title := js "New"; d_description := [];
                  d_dueDate := []; d_priority := low |} in
  ∃ tasks,
    @handleSubmit RefHost.host (js "a") 0 draft [] = Normal (tasks, emptyDraft)
    ∧ @handleSubmit RefHost.host (js "b") 1 emptyDraft tasks = Normal (tasks, emptyDraft).
Proof.
  intros draft. eexists.
  split; [reflexivity|].
  eapply (@handleSubmit_twice RefHost.host (js "a") (js "b") 0 1 draft).
  - vm_compute. discriminate.
  - reflexivity.
Defined.

(** ** Trimmed titles *)

Lemma trimStart_snoc (l : jsstring) (c : N) :
  is_whitespace c = false → trimStart (l ++ [c]) = trimStart l ++ [c].
Proof.
  intros Hc. induction l as [|a l IH]; simpl.
  - by rewrite Hc.
  - by destruct (is_whitespace a).
Qed.

Lemma trimStart_head (s : jsstring) :
  trimStart s = [] ∨ ∃ c y, trimStart s = c :: y ∧ is_whitespace c = false.
Proof.
  induction s as [|a s IH]; simpl; [by left|].
  destruct (is_whitespace a) eqn:Ha; [done|]. right. eauto.
Qed.

Lemma trimStart_idem (s : jsstring) : trimStart (trimStart s) = trimStart s.
Proof.
  destruct (trimStart_head s) as [->|(c & y & -> & Hc)]; [done|].
  simpl. by rewrite Hc.
Qed.

Lemma trimEnd_cons (c : N) (x : jsstring) :
  is_whitespace c = false → trimEnd (c :: x) = c :: trimEnd x.
Proof.
  intros Hc. unfold trimEnd. simpl.
  rewrite trimStart_snoc by done. by rewrite rev_app_distr.
Qed.

Lemma trimEnd_idem (x : jsstring) : trimEnd (trimEnd x) = trimEnd x.
Proof. unfold trimEnd. by rewrite rev_involutive, trimStart_idem. Qed.

(** Trimming a trimmed string changes nothing. *)
Lemma trim_idem (s : jsstring) : trim (trim s) = trim s.
Proof.
  unfold trim.
  destruct (trimStart_head s) as [->|(c & y & -> & Hc)]; [done|].
  rewrite trimEnd_cons by done. simpl. rewrite Hc.
  rewrite <- trimEnd_cons by done. apply trimEnd_idem.
Qed.

(** X13: every title in the collection stays non-empty and free of white
    space at both ends: a task that [handleSubmit] adds has such a title,
    and an update whose patch carries no title, a delete and clearing the
    completed tasks keep the titles the tasks have. *)
Theorem titles_stay_trimmed `{Host} (prev : list Task) :
  Forall (λ t, title t ≠ [] ∧ trim (title t) = title t) prev →
  (∀ uuid now draft,
     Forall (λ t, title t ≠ [] ∧ trim (title t) = title t)
            (tasks_after (handleSubmit uuid now draft prev) prev))
  ∧ (∀ i patch, p_title patch = None →
       Forall (λ t, title t ≠ [] ∧ trim (title t) = title t)
              (updateTask i patch prev))
  ∧ (∀ i, Forall (λ t, title t ≠ [] ∧ trim (title t) = title t)
                 (deleteTask i prev))
  ∧ Forall (λ t, title t ≠ [] ∧ trim (title t) = title t) (clearCompleted prev).
Proof.
  intros Hall. split; [|split; [|split]].
  - intros uuid now draft.
    destruct (handleSubmit_tasks_after uuid now draft prev)
      as [->|(t & -> & Hne & _ & _ & Ht & _)]; [done|].
    simpl. constructor; [|done]. rewrite Ht. split; [done|apply trim_idem].
  - intros i patch Hp. rewrite updateTask_fmap. apply Forall_fmap.
    eapply Forall_impl; [exact Hall|]. intros t Ht. simpl.
    case_bool_decide; [|done]. unfold spread_patch. simpl. by rewrite Hp.
  - intros i. by apply Array_filter_Forall.
  - by apply Array_filter_Forall.
Qed.

Lemma titles_stay_trimmed_witness :
  let draft := {| d_title := js "  New  "; d_description := [];
                  d_dueDate := []; d_priority := low |} in
  Forall (λ t, title t ≠ [] ∧ trim (title t) = title t)
         (tasks_after (@handleSubmit RefHost.host (js "a") 0 draft []) []).
Proof.
  intros draft.
  destruct (@titles_stay_trimmed RefHost.host []) as (Hadd & _); [constructor|].
  exact (Hadd (js "a") 0%Z draft).
Defined.

(** ** Clearing *)

Lemma Array_filter_nil_iff {A} (p : A → bool) (l : list A) :
  Array_filter p l = [] ↔ ∀ x, x ∈ l → p x = false.
Proof.
  induction l as [|x l IH]; simpl.
  - split; [|done]. intros _ y Hy. by apply elem_of_nil in Hy.
  - destruct (p x) eqn:Hx.
    + split; [discriminate|]. intros Hall.
      rewrite (Hall x) in Hx by constructor. discriminate.
    + rewrite IH. split.
      * intros Hall y [->|Hy]%elem_of_cons; auto.
      * intros Hall y Hy. apply Hall. by right.
Qed.

(** X14: after "Clear completed" no completed task is left, so the
    button goes away and a second clearing changes nothing; and the
    button is hidden exactly when clearing would change nothing. *)
Theorem clearCompleted_button (tasks : list Task) :
  completedCount (clearCompleted tasks) = 0%nat
  ∧ showClearCompleted (clearCompleted tasks) = false
  ∧ clearCompleted (clearCompleted tasks) = clearCompleted tasks
  ∧ (showClearCompleted tasks = false ↔ clearCompleted tasks = tasks).
Proof.
  assert (Hnone : Array_filter completed (clearCompleted tasks) = []).
  { apply Array_filter_nil_iff. intros t [_ Ht]%Array_filter_elem_of.
    by destruct (completed t). }
  assert (Hcount : completedCount (clearCompleted tasks) = 0%nat).
  { unfold completedCount. by rewrite Hnone. }
  split; [done|]. split; [unfold showClearCompleted; by rewrite Hcount|].
  split.
  - apply Array_filter_id. intros t [_ Ht]%Array_filter_elem_of. done.
  - unfold showClearCompleted, completedCount.
    rewrite Nat.ltb_ge, Nat.le_0_r, length_zero_iff_nil, Array_filter_nil_iff.
    split.
    + intros Hall. apply Array_filter_id. intros t Ht. by rewrite (Hall t).
    + intros Heq t Ht. rewrite <- Heq in Ht.
      apply Array_filter_elem_of in Ht as [_ Ht]. by destruct (completed t).
Qed.

Lemma Array_filter_twice {A} (p q : A → bool) (l : list A) :
  Array_filter p (Array_filter q l) = Array_filter (λ x, q x && p x) l.
Proof.
  induction l as [|x l IH]; simpl; [done|].
  destruct (q x); simpl; [|done]. destruct (p x); by rewrite IH.
Qed.

Lemma Array_filter_ext_in {A} (p q : A → bool) (l : list A) :
  (∀ x, x ∈ l → p x = q x) → Array_filter p l = Array_filter q l.
Proof.
  induction l as [|x l IH]; intros Hpq; simpl; [done|].
  rewrite (Hpq x) by constructor. rewrite IH; [done|].
  intros y Hy. apply Hpq. by right.
Qed.

(** Deleting a list of ids, one after the other, keeps the tasks whose
    id is not in the list. *)
Lemma foldr_deleteTask (ids : list jsstring) (l : list Task) :
  foldr deleteTask l ids = Array_filter (λ t, negb (bool_decide (id t ∈ ids))) l.
Proof.
  induction ids as [|i ids IH]; simpl.
  - symmetry. by apply Array_filter_id.
  - rewrite IH. unfold deleteTask. rewrite Array_filter_twice.
    apply Array_filter_ext. intros t.
    rewrite <- negb_orb. f_equal.
    apply eq_true_iff_eq. rewrite orb_true_iff, !bool_decide_eq_true, elem_of_cons.
    tauto.
Qed.

Lemma ids_inj (l : list Task) (t u : Task) :
  NoDup (id <$> l) → t ∈ l → u ∈ l → id t = id u → t = u.
Proof.
  induction l as [|x l IH]; intros Hnd Ht Hu Heq.
  { by apply elem_of_nil in Ht. }
  rewrite fmap_cons, NoDup_cons in Hnd. destruct Hnd as [Hx Hnd].
  apply elem_of_cons in Ht as [->|Ht]; apply elem_of_cons in Hu as [->|Hu].
  - done.
  - exfalso. apply Hx. rewrite Heq. apply list_elem_of_fmap. eauto.
  - exfalso. apply Hx. rewrite <- Heq. apply list_elem_of_fmap. eauto.
  - by apply IH.
Qed.

(** X15: in a collection with distinct ids, clearing the completed tasks
    is the same as deleting them one by one, by their ids. *)
Theorem clearCompleted_as_deletes (prev : list Task) :
  NoDup (id <$> prev) →
  clearCompleted prev = foldr deleteTask prev (id <$> Array_filter completed prev).
Proof.
  intros Hnd. rewrite foldr_deleteTask. unfold clearCompleted.
  apply Array_filter_ext_in. intros t Ht. f_equal.
  symmetry. apply eq_true_iff_eq. rewrite bool_decide_eq_true, list_elem_of_fmap.
  split.
  - intros (u & Hid & [Hu Hc]%Array_filter_elem_of).
    by rewrite (ids_inj prev t u Hnd Ht Hu Hid).
  - intros Hc. exists t. split; [done|]. by apply Array_filter_elem_of.
Qed.

Lemma clearCompleted_as_deletes_witness :
  let mk i c := {| id := i; title := js "T"; description := [];
                   completed := c; createdAt := js "2024-02-29T12:34:56.789Z";
                   dueDate := None; priority := medium |} in
  clearCompleted [mk (js "a") true; mk (js "b") false; mk (js "c") true] =
    deleteTask (js "a")
      (deleteTask (js "c") [mk (js "a") true; mk (js "b") false; mk (js "c") true]).
Proof.
  intros mk.
  apply (clearCompleted_as_deletes
           [mk (js "a") true; mk (js "b") false; mk (js "c") true]).
  closed_NoDup.
Defined.

(** ** What the list shows *)

(** X16: whatever the filter and the sort key, the rows shown are the
    tasks of the collection that pass the filter, each as many times as
    it occurs there: none is lost, added or repeated; and the placeholder
    row appears exactly when no task passes the filter. *)
Theorem displayed_is_selection `{Host} (filter : FilterState) (ts : list Task) :
  displayed filter ts ≡ₚ Array_filter (keep filter) ts
  ∧ (∀ t, t ∈ displayed filter ts ↔ t ∈ ts ∧ keep filter t = true)
  ∧ (length (displayed filter ts) ≤ length ts)%nat
  ∧ (showEmptyState (displayed filter ts) = true ↔
       ∀ t, t ∈ ts → keep filter t = false).
Proof.
  assert (Hp : displayed filter ts ≡ₚ Array_filter (keep filter) ts).
  { rewrite displayed_eq. apply Array_sort_perm. }
  split; [exact Hp|]. split; [|split].
  - intros t. rewrite Hp. apply Array_filter_elem_of.
  - rewrite Hp, Array_filter_filter. apply length_filter.
  - unfold showEmptyState. rewrite Hp, Nat.eqb_eq, length_zero_iff_nil.
    apply Array_filter_nil_iff.
Qed.

(** X17: the rows are keyed by the task ids; when the ids of the
    collection are distinct, so are the keys of the rows. *)
Theorem displayed_keys_distinct `{Host} (filter : FilterState) (ts : list Task) :
  NoDup (id <$> ts) → NoDup (id <$> displayed filter ts).
Proof.
  intros Hnd.
  assert (Hp : id <$> displayed filter ts ≡ₚ id <$> Array_filter (keep filter) ts).
  { apply fmap_Permutation. rewrite displayed_eq. apply Array_sort_perm. }
  rewrite Hp. by apply Array_filter_ids_NoDup.
Qed.

Lemma displayed_keys_distinct_witness :
  let mk i c := {| id := i; title := js "T"; description := [];
                   completed := false; createdAt := c;
                   dueDate := None; priority := medium |} in
  NoDup (id <$> @displayed RefHost.host defaultFilter
           [mk (js "a") (js "2024-02-29T12:34:56.789Z");
            mk (js "b") (js "2024-03-01T08:00:00.000Z")]).
Proof.
  intros mk. apply (@displayed_keys_distinct RefHost.host). closed_NoDup.
Defined.

(** X18: every row shown satisfies each part of the filter: under
    "active" it is not completed, under "completed" it is, under a
    priority other than "all" it has that priority, and under a query that
    is not blank its lower-cased title or description contains the
    lower-cased query. *)
Theorem displayed_respects_filter `{Host} (filter : FilterState)
    (ts : list Task) (t : Task) :
  t ∈ displayed filter ts →
  (f_status filter = status_active → completed t = false)
  ∧ (f_status filter = status_completed → completed t = true)
  ∧ (f_priority filter ≠ prio_all →
       priority_filter_of (priority t) = f_priority filter)
  ∧ (trim (f_query filter) ≠ [] →
       includes (toLowerCase (title t)) (toLowerCase (f_query filter)) = true
       ∨ includes (toLowerCase (description t)) (toLowerCase (f_query filter)) = true).
Proof.
  intros Ht.
  assert (Hk : keep filter t = true).
  { rewrite displayed_eq, Array_sort_perm in Ht.
    by apply Array_filter_elem_of in Ht as [_ Ht]. }
  unfold keep in Hk. repeat split.
  - intros Hs. rewrite Hs in Hk. simpl in Hk. by destruct (completed t).
  - intros Hs. rewrite Hs in Hk. simpl in Hk. by destruct (completed t).
  - intros Hp.
    destruct (bool_decide (f_status filter = status_active) && completed t);
      [done|].
    destruct (bool_decide (f_status filter = status_completed) && negb (completed t));
      [done|].
    rewrite (bool_decide_eq_false_2 _ Hp) in Hk. simpl in Hk.
    case_bool_decide; [done|discriminate].
  - intros Hq. apply truthy_true_iff in Hq. rewrite Hq in Hk.
    repeat match type of Hk with
    | (if ?b then false else _) = true => destruct b; [discriminate|]
    end.
    by apply orb_true_iff.
Qed.

Lemma displayed_respects_filter_witness :
  let mk i c := {| id := i; title := js "T"; description := [];
                   completed := c; createdAt := js "2024-02-29T12:34:56.789Z";
                   dueDate := None; priority := medium |} in
  let filter := {| f_query := []; f_status := status_active;
                   f_priority := prio_all; f_sort := sort_created |} in
  completed (mk (js "a") false) = false.
Proof.
  intros mk filter.
  destruct (@displayed_respects_filter RefHost.host filter
              [mk (js "a") false; mk (js "b") true] (mk (js "a") false))
    as (Hactive & _).
  - vm_compute. constructor.
  - by apply Hactive.
Defined.

Lemma Array_filter_partition {A} (c k : A → bool) (l : list A) :
  Array_filter k l ≡ₚ
    Array_filter (λ x, negb (c x) && k x) l ++ Array_filter (λ x, c x && k x) l.
Proof.
  induction l as [|x l IH]; simpl; [done|].
  destruct (c x), (k x); simpl; try done.
  - rewrite IH. apply Permutation_middle.
  - by rewrite IH.
Qed.

(** X19: the status choices divide the list: for a given query, priority
    and sort key, the rows shown under "all" are those shown under
    "active" together with those shown under "completed". *)
Theorem status_filter_partition `{Host} (query : jsstring) (prio : PriorityFilter)
    (key : SortKey) (ts : list Task) :
  displayed {| f_query := query; f_status := status_all;
               f_priority := prio; f_sort := key |} ts
  ≡ₚ displayed {| f_query := query; f_status := status_active;
                  f_priority := prio; f_sort := key |} ts
     ++ displayed {| f_query := query; f_status := status_completed;
                     f_priority := prio; f_sort := key |} ts.
Proof.
  rewrite !displayed_eq, !Array_sort_perm.
  rewrite (Array_filter_partition completed).
  apply Permutation_app; apply reflexive_eq, Array_filter_ext; intros t;
    rewrite !keep_unfold; unfold status_pred; simpl; by destruct (completed t).
Qed.

Section OtherKeys.
Context `{Host}.
Variable filter : FilterState.

Lemma comparator_priority (a b : Task) :
  f_sort filter = sort_priority →
  SortCompare (comparator filter) a b =
    (priorityRank (priority a) - priorityRank (priority b))%Z.
Proof. intros Hs. unfold SortCompare, comparator. by rewrite Hs. Qed.

Lemma comparator_created (a b : Task) :
  f_sort filter = sort_created →
  comparator filter a b = number_sub (getTime (createdAt b)) (getTime (createdAt a)).
Proof. intros Hs. unfold comparator. by rewrite Hs. Qed.

Lemma comparator_title (a b : Task) :
  f_sort filter = sort_title →
  SortCompare (comparator filter) a b = localeCompare (title a) (title b).
Proof. intros Hs. unfold SortCompare, comparator. by rewrite Hs. Qed.

End OtherKeys.

(** X20: under the sort key "priority" the rows run from high through
    medium to low: of two rows the earlier has the lower or equal rank;
    and the rows of one priority keep the order they have in the
    collection. *)
Theorem priority_sort_order `{Host} (filter : FilterState) (ts : list Task) :
  f_sort filter = sort_priority →
  (∀ i j a b, (i < j)%nat →
     displayed filter ts !! i = Some a → displayed filter ts !! j = Some b →
     (priorityRank (priority a) ≤ priorityRank (priority b))%Z)
  ∧ (∀ p, Array_filter (λ t, bool_decide (priority t = p)) (displayed filter ts) =
          Array_filter (λ t, bool_decide (priority t = p))
            (Array_filter (keep filter) ts)).
Proof.
  intros Hs. split.
  - intros i j a b Hij Hi Hj.
    eapply (StronglySorted_lookup
              (λ a b, (priorityRank (priority a) ≤ priorityRank (priority b))%Z));
      [|exact Hij|exact Hi|exact Hj].
    rewrite displayed_eq.
    apply (Array_sort_sorted _ (λ _, True)).
    + intros x y _ _. rewrite (comparator_priority filter) by done. lia.
    + intros x y _ _. lia.
    + intros x y z _ _ _. lia.
    + by apply Forall_true.
  - intros p. rewrite displayed_eq. apply Array_sort_filter.
    intros a b _ _ Ha%bool_decide_eq_true Hb%bool_decide_eq_true.
    rewrite (comparator_priority filter) by done. rewrite Ha, Hb. lia.
Qed.

Lemma priority_sort_order_witness :
  let mk i p := {| id := i; title := js "T"; description := [];
                   completed := false; createdAt := js "2024-02-29T12:34:56.789Z";
                   dueDate := None; priority := p |} in
  let filter := {| f_query := []; f_status := status_all;
                   f_priority := prio_all; f_sort := sort_priority |} in
  Array_filter (λ t, bool_decide (priority t = low))
    (@displayed RefHost.host filter
       [mk (js "a") low; mk (js "b") high; mk (js "c") low]) =
    [mk (js "a") low; mk (js "c") low].
Proof.
  intros mk filter.
  destruct (@priority_sort_order RefHost.host filter
              [mk (js "a") low; mk (js "b") high; mk (js "c") low])
    as [_ Hstable]; [reflexivity|].
  rewrite Hstable. reflexivity.
Defined.

(** X21: under the default sort key, for tasks whose creation stamps the
    host reads as dates, the rows run from the newest to the oldest. *)
Theorem created_sort_order `{Host} (filter : FilterState) (ts : list Task) :
  f_sort filter = sort_created →
  Forall (λ t, is_Some (Date_parse (createdAt t))) ts →
  ∀ i j a b, (i < j)%nat →
    displayed filter ts !! i = Some a → displayed filter ts !! j = Some b →
    ∃ ta tb, Date_parse (createdAt a) = Some ta
             ∧ Date_parse (createdAt b) = Some tb
             ∧ (tb ≤ ta)%Z.
Proof.
  intros Hs Hv i j a b Hij Hi Hj.
  set (R := λ a b : Task,
         match Date_parse (createdAt a), Date_parse (createdAt b) with
         | Some ta, Some tb => (tb ≤ ta)%Z
         | _, _ => True
         end).
  assert (Hsorted : StronglySorted R (displayed filter ts)).
  { rewrite displayed_eq.
    apply (Array_sort_sorted _ (λ t, is_Some (Date_parse (createdAt t)))).
    - intros x y [tx Hx] [ty Hy]. unfold SortCompare, R.
      rewrite (comparator_created filter) by done. unfold getTime.
      rewrite Hx, Hy. simpl. lia.
    - intros x y [tx Hx] [ty Hy]. unfold R. rewrite Hx, Hy. lia.
    - intros x y z [tx Hx] [ty Hy] [tz Hz]. unfold R. rewrite Hx, Hy, Hz. lia.
    - by apply Array_filter_Forall. }
  pose proof (StronglySorted_lookup _ _ _ _ _ _ Hsorted Hij Hi Hj) as Hab.
  assert (Hin : ∀ k x, displayed filter ts !! k = Some x →
                       is_Some (Date_parse (createdAt x))).
  { intros k x Hk. apply list_elem_of_lookup_2 in Hk.
    rewrite displayed_eq, Array_sort_perm in Hk.
    apply Array_filter_elem_of in Hk as [Hk _].
    rewrite Forall_forall in Hv. auto. }
  destruct (Hin _ _ Hi) as [ta Hta]. destruct (Hin _ _ Hj) as [tb Htb].
  unfold R in Hab. rewrite Hta, Htb in Hab. eauto.
Qed.

Lemma created_sort_order_witness :
  let mk i c := {| id := i; title := js "T"; description := [];
                   completed := false; createdAt := c;
                   dueDate := None; priority := medium |} in
  let ts := [mk (js "old") (js "2024-02-29T12:34:56.789Z");
             mk (js "new") (js "2024-03-01T08:00:00.000Z")] in
  ∃ ta tb,
    RefHost.Date_parse (js "2024-03-01T08:00:00.000Z") = Some ta
    ∧ RefHost.Date_parse (js "2024-02-29T12:34:56.789Z") = Some tb
    ∧ (tb ≤ ta)%Z.
Proof.
  intros mk ts.
  apply (@created_sort_order RefHost.host defaultFilter ts eq_refl) with
    (i := 0%nat) (j := 1%nat)
    (a := mk (js "new") (js "2024-03-01T08:00:00.000Z"))
    (b := mk (js "old") (js "2024-02-29T12:34:56.789Z")).
  - repeat (apply Forall_cons_2 || apply Forall_nil_2); vm_compute; eauto.
  - lia.
  - vm_compute. reflexivity.
  - vm_compute. reflexivity.
Defined.

(** X22: under the sort key "title", on a host whose [localeCompare]
    orders strings totally and transitively, the rows are in that order:
    of two rows the earlier never compares after the later. *)
Theorem title_sort_order `{Host} (filter : FilterState) (ts : list Task) :
  f_sort filter = sort_title →
  (∀ x y, (localeCompare x y ≤ 0)%Z ∨ (localeCompare y x ≤ 0)%Z) →
  (∀ x y z, (localeCompare x y ≤ 0)%Z → (localeCompare y z ≤ 0)%Z →
            (localeCompare x z ≤ 0)%Z) →
  ∀ i j a b, (i < j)%nat →
    displayed filter ts !! i = Some a → displayed filter ts !! j = Some b →
    (localeCompare (title a) (title b) ≤ 0)%Z.
Proof.
  intros Hs Htotal Htrans i j a b Hij Hi Hj.
  eapply (StronglySorted_lookup
            (λ a b, (localeCompare (title a) (title b) ≤ 0)%Z));
    [|exact Hij|exact Hi|exact Hj].
  rewrite displayed_eq.
  apply (Array_sort_sorted _ (λ _, True)).
  - intros x y _ _. by rewrite (comparator_title filter).
  - intros x y _ _. apply Htotal.
  - intros x y z _ _ _. apply Htrans.
  - by apply Forall_true.
Qed.

Lemma RefHost_localeCompare_total (x y : jsstring) :
  (RefHost.localeCompare x y ≤ 0)%Z ∨ (RefHost.localeCompare y x ≤ 0)%Z.
Proof.
  revert y. induction x as [|c x IH]; intros [|d y]; simpl; try lia.
  destruct (N.ltb_spec c d), (N.ltb_spec d c); try lia. apply IH.
Qed.

Lemma RefHost_localeCompare_trans (x y z : jsstring) :
  (RefHost.localeCompare x y ≤ 0)%Z → (RefHost.localeCompare y z ≤ 0)%Z →
  (RefHost.localeCompare x z ≤ 0)%Z.
Proof.
  revert y z. induction x as [|c x IH]; intros [|d y] [|e z]; simpl; try lia.
  destruct (N.ltb_spec c d), (N.ltb_spec d c), (N.ltb_spec d e),
    (N.ltb_spec e d), (N.ltb_spec c e), (N.ltb_spec e c); try lia.
  apply IH.
Qed.

Lemma title_sort_order_witness :
  let mk i t := {| id := i; title := t; description := [];
                   completed := false; createdAt := js "2024-02-29T12:34:56.789Z";
                   dueDate := None; priority := medium |} in
  let filter := {| f_query := []; f_status := status_all;
                   f_priority := prio_all; f_sort := sort_title |} in
  (RefHost.localeCompare (js "apple") (js "pear") ≤ 0)%Z.
Proof.
  intros mk filter.
  apply (@title_sort_order RefHost.host filter
           [mk (js "1") (js "pear"); mk (js "2") (js "apple")] eq_refl
           RefHost_localeCompare_total RefHost_localeCompare_trans
           0%nat 1%nat (mk (js "2") (js "apple")) (mk (js "1") (js "pear"))).
  - lia.
  - vm_compute. reflexivity.
  - vm_compute. reflexivity.
Defined.

(** X23: with the default filter no task is hidden: the rows are the
    tasks of the collection, each once. *)
Theorem default_filter_shows_all `{Host} (ts : list Task) :
  displayed defaultFilter ts ≡ₚ ts
  ∧ length (displayed defaultFilter ts) = length ts.
Proof.
  assert (Hp : displayed defaultFilter ts ≡ₚ ts).
  { rewrite displayed_eq, Array_sort_perm.
    by rewrite Array_filter_id. }
  split; [done|]. by rewrite Hp.
Qed.

(** ** The stored text *)

(** X24: the load effect is silent except on a text that is not JSON:
    [console.error] is called, once, exactly when the slot holds a
    non-empty text that [JSON.parse] rejects; an absent slot, an empty
    text and a JSON value that is not an array leave the collection as it
    is without a message; and the collection changes only by adopting
    the array the text denotes. *)
Theorem load_effect_cases (saved : option jsstring) (tasks : list jsval) :
  ((load_effect saved tasks).2 = 1%nat ↔
     ∃ text, saved = Some text ∧ text ≠ [] ∧ JSON_parse text = Throw SyntaxError)
  ∧ ((load_effect saved tasks).2 = 0%nat ∨ (load_effect saved tasks).2 = 1%nat)
  ∧ ((load_effect saved tasks).1 = tasks
     ∨ ∃ text, saved = Some text
               ∧ JSON_parse text = Normal (JArr (load_effect saved tasks).1)).
Proof.
  unfold load_effect. destruct saved as [text|]; simpl.
  - destruct (truthy text) eqn:Ht; simpl.
    + apply truthy_true_iff in Ht.
      destruct (JSON_parse text) as [v|e] eqn:Hp.
      * assert (Hno : ¬ ∃ text0, Some text = Some text0 ∧ text0 ≠ []
                                 ∧ JSON_parse text0 = Throw SyntaxError).
        { intros (? & [= <-] & _ & Hthrow). congruence. }
        destruct v; simpl; (split; [split; [discriminate|by intros ?%Hno]|]);
          (split; [by left|]); try by left.
        right. eauto.
      * apply JSON_parse_Throw in Hp as Hp'. destruct Hp' as [-> _]. simpl.
        split; [|split; [by right|by left]].
        split; [|done]. intros _. eauto.
    + apply truthy_false_iff in Ht. subst text.
      split; [|split; [by left|by left]].
      split; [discriminate|]. intros (? & [= <-] & Hne & _). done.
  - split; [|split; [by left|by left]].
    split; [discriminate|]. intros (? & [=] & _).
Qed.

Lemma JSON_stringify_inj (ts1 ts2 : list Task) :
  JSON_stringify ts1 = JSON_stringify ts2 → ts1 = ts2.
Proof.
  intros Heq.
  assert (Hv : Task_to_js <$> ts1 = Task_to_js <$> ts2).
  { pose proof (JSON_parse_stringify ts1) as H1.
    pose proof (JSON_parse_stringify ts2) as H2.
    rewrite Heq in H1. congruence. }
  assert (Hd : ∀ ts, mapM Task_of_js (Task_to_js <$> ts) = Some ts).
  { intros ts. apply mapM_fmap_Some. apply Task_of_js_to_js. }
  pose proof (Hd ts1) as H1. rewrite Hv, Hd in H1. congruence.
Qed.

(** X25: two collections that differ are never stored as the same text:
    the persist effect loses nothing of a task collection. *)
Theorem persist_effect_injective (ts1 ts2 : list Task) :
  persist_effect ts1 = persist_effect ts2 → ts1 = ts2.
Proof. apply JSON_stringify_inj. Qed.

Lemma persist_effect_injective_witness :
  let t := {| id := js "a"; title := js "T"; description := [];
              completed := false; createdAt := js "2024-02-29T12:34:56.789Z";
              dueDate := None; priority := medium |} in
  [t] = [t].
Proof.
  intros t. apply (persist_effect_injective [t] [t]). reflexivity.
Defined.
